(** * Instagram downloader service: a shallow embedding and its properties

    The development follows the three source files:
    - [config.py]            the endpoint constants,
    - [utlis/downloader.py]  class [InstagramDownloader],
    - [app.py]               the rate limiter and the [/proxy] route.

    Python [str] values are modelled as [string]; the model therefore covers
    the strings whose code points are below 256.  On that range [\d] is
    [0-9], [\s] and [str.strip] use the twelve white-space code points listed
    in [Str.isspace], and [str.lower] maps [A-Z] and the Latin-1 capitals to
    their small letters.

    Part I holds the embedding, Part II the lemmas and theorems, Part III
    further properties of the code. *)

From Stdlib Require Import ZArith QArith Lia Lqa Bool Ascii.
From stdpp Require Import base gmap sets list strings pretty.

Local Open Scope string_scope.

(* ===================================================================== *)
(** * Part I: the embedding                                               *)
(* ===================================================================== *)

(** ** Python string operations *)

Module Str.

(** [all p s]: every character of [s] satisfies [p]. *)
Fixpoint all (p : ascii -> bool) (s : string) : bool :=
  match s with
  | "" => true
  | String a s' => p a && all p s'
  end.

(** [s[:n]] *)
Fixpoint take (n : nat) (s : string) : string :=
  match n, s with
  | S n', String a s' => String a (take n' s')
  | _, _ => ""
  end.

(** [needle in hay] *)
Fixpoint contains (needle hay : string) : bool :=
  String.prefix needle hay ||
  match hay with
  | "" => false
  | String _ hay' => contains needle hay'
  end.

(** [s.split(c)[0]]: the text before the first [c], all of [s] without one. *)
Fixpoint split_head (c : ascii) (s : string) : string :=
  match s with
  | "" => ""
  | String a s' => if Ascii.eqb a c then "" else String a (split_head c s')
  end.

(** [s.split(c)[-1]]: the text after the last [c], all of [s] without one. *)
Fixpoint split_last (c : ascii) (s : string) : string :=
  match s with
  | "" => ""
  | String a s' =>
      if contains (String c "") s' then split_last c s'
      else if Ascii.eqb a c then s' else s
  end.

(** White space as [str.isspace], [str.strip] and [\s] see it below 256. *)
Definition isspace (a : ascii) : bool :=
  match a with
  | "009" | "010" | "011" | "012" | "013"
  | "028" | "029" | "030" | "031" | " " | "133" | "160" => true
  | _ => false
  end%char.

Definition isdigit (a : ascii) : bool :=
  let n := nat_of_ascii a in (48 <=? n)%nat && (n <=? 57)%nat.

Fixpoint lstrip (s : string) : string :=
  match s with
  | "" => ""
  | String a s' => if isspace a then lstrip s' else s
  end.

Fixpoint rstrip (s : string) : string :=
  match s with
  | "" => ""
  | String a s' =>
      match rstrip s' with
      | "" => if isspace a then "" else String a ""
      | r => String a r
      end
  end.

(** [s.strip()] *)
Definition strip (s : string) : string := rstrip (lstrip s).

(** [str.lower] on one code point: [A-Z] and the Latin-1 capitals
    (192..222 without the multiplication sign 215). *)
Definition lower_char (a : ascii) : ascii :=
  let n := nat_of_ascii a in
  if ((65 <=? n) && (n <=? 90) ||
      (192 <=? n) && (n <=? 222) && negb (n =? 215))%nat
  then ascii_of_nat (n + 32) else a.

(** [str.upper] on one code point: [a-z] and the Latin-1 small letters
    (224..254 without the division sign 247).  The three code points whose
    capital is not a single code point below 256 (181, 223, 255) are left
    alone; the program only applies [upper] to the letters of a size unit. *)
Definition upper_char (a : ascii) : ascii :=
  let n := nat_of_ascii a in
  if ((97 <=? n) && (n <=? 122) ||
      (224 <=? n) && (n <=? 254) && negb (n =? 247))%nat
  then ascii_of_nat (n - 32) else a.

Fixpoint map (f : ascii -> ascii) (s : string) : string :=
  match s with
  | "" => ""
  | String a s' => String (f a) (map f s')
  end.

Definition lower : string -> string := map lower_char.
Definition upper : string -> string := map upper_char.

(** Python truthiness of a string. *)
Definition nonempty (s : string) : bool :=
  match s with "" => false | _ => true end.

End Str.

(** ** Regular expressions as Python's [re] runs them

    A backtracking matcher in continuation-passing style: alternatives are
    tried left to right, repetition is greedy, and the groups captured so far
    travel with the position, so that backtracking restores them. *)

Module Re.

Inductive regex : Type :=
  | Eps                           (* the empty pattern *)
  | Chr (p : ascii -> bool)       (* one character of a class *)
  | Cat (r1 r2 : regex)           (* r1 r2 *)
  | Alt (r1 r2 : regex)           (* r1|r2, r1 tried first *)
  | Star (r : regex)              (* r*, greedy *)
  | Group (n : nat) (r : regex).  (* capturing group number n *)

Abbreviation captures := (gmap nat string).

(** The greedy loop of [r*] at position [s]: try one more iteration of the
    body, which has to consume something, and fall back on the continuation.
    [fuel] bounds the number of iterations by the length of the text. *)
Fixpoint star_loop {A : Type}
    (body : string -> captures -> (string -> captures -> option A) -> option A)
    (k : string -> captures -> option A)
    (fuel : nat) (s : string) (c : captures) : option A :=
  match fuel with
  | O => k s c
  | S fuel' =>
      match body s c (fun s' c' =>
              if (String.length s' <? String.length s)%nat
              then star_loop body k fuel' s' c' else None) with
      | Some x => Some x
      | None => k s c
      end
  end.

(** [bt r s c k]: match [r] at the front of [s] with the groups [c], and hand
    the rest of the text and the groups to [k]; [None] once every way of
    matching [r] has been rejected. *)
Fixpoint bt {A : Type} (r : regex) (s : string) (c : captures)
    (k : string -> captures -> option A) : option A :=
  match r with
  | Eps => k s c
  | Chr p =>
      match s with
      | String a s' => if p a then k s' c else None
      | "" => None
      end
  | Cat r1 r2 => bt r1 s c (fun s' c' => bt r2 s' c' k)
  | Alt r1 r2 =>
      match bt r1 s c k with
      | Some x => Some x
      | None => bt r2 s c k
      end
  | Star r1 =>
      star_loop (fun s' c' k' => bt r1 s' c' k') k (String.length s) s c
  | Group n r1 =>
      bt r1 s c (fun s' c' =>
        k s' (<[n := Str.take (String.length s - String.length s') s]> c'))
  end.

(** [re.match(r, s)]: the groups of the match anchored at the start. *)
Definition re_match (r : regex) (s : string) : option captures :=
  bt r s ∅ (fun _ c => Some c).

(** [re.search(r, s)]: the groups of the match at the leftmost position. *)
Fixpoint re_search (r : regex) (s : string) : option captures :=
  match re_match r s with
  | Some c => Some c
  | None =>
      match s with
      | "" => None
      | String _ s' => re_search r s'
      end
  end.

(** *** Pattern syntax *)

Definition chr (a : ascii) : regex := Chr (Ascii.eqb a).

(** A literal character under [re.IGNORECASE]. *)
Definition chr_i (a : ascii) : regex :=
  Chr (fun b => Ascii.eqb (Str.lower_char b) (Str.lower_char a)).

Fixpoint lit (s : string) : regex :=
  match s with
  | "" => Eps
  | String a s' => Cat (chr a) (lit s')
  end.

Fixpoint lit_i (s : string) : regex :=
  match s with
  | "" => Eps
  | String a s' => Cat (chr_i a) (lit_i s')
  end.

(** [r?] and [r+], both greedy. *)
Definition opt (r : regex) : regex := Alt r Eps.
Definition plus (r : regex) : regex := Cat r (Star r).

Fixpoint seq (rs : list regex) : regex :=
  match rs with
  | [] => Eps
  | r :: rs' => Cat r (seq rs')
  end.

Fixpoint alts (r : regex) (rs : list regex) : regex :=
  match rs with
  | [] => r
  | r' :: rs' => Alt r (alts r' rs')
  end.

Definition in_range (lo hi a : ascii) : bool :=
  (nat_of_ascii lo <=? nat_of_ascii a)%nat &&
  (nat_of_ascii a <=? nat_of_ascii hi)%nat.

(** [A-Za-z0-9] *)
Definition alnum (a : ascii) : bool :=
  in_range "A" "Z" a || in_range "a" "z" a || in_range "0" "9" a.

(** [.] without [re.DOTALL] *)
Definition dot (a : ascii) : bool := negb (Ascii.eqb a "010").

(** What the pattern stands for: [matches r w c c'] says that [r] can match
    exactly the text [w], turning the groups [c] into [c']. *)
Inductive matches : regex -> string -> captures -> captures -> Prop :=
  | M_eps c : matches Eps "" c c
  | M_chr p a c : p a = true -> matches (Chr p) (String a "") c c
  | M_cat r1 r2 w1 w2 c c' c'' :
      matches r1 w1 c c' -> matches r2 w2 c' c'' ->
      matches (Cat r1 r2) (w1 ++ w2) c c''
  | M_alt_l r1 r2 w c c' : matches r1 w c c' -> matches (Alt r1 r2) w c c'
  | M_alt_r r1 r2 w c c' : matches r2 w c c' -> matches (Alt r1 r2) w c c'
  | M_star_nil r c : matches (Star r) "" c c
  | M_star_cons r w1 w2 c c' c'' :
      w1 <> "" -> matches r w1 c c' -> matches (Star r) w2 c' c'' ->
      matches (Star r) (w1 ++ w2) c c''
  | M_group n r w c c' :
      matches r w c c' -> matches (Group n r) w c (<[n := w]> c').

(** The language of a pattern, groups forgotten. *)
Definition in_lang (r : regex) (w : string) : Prop :=
  exists c c', matches r w c c'.

End Re.

(** ** [config.py] *)

Module Config.

Definition REEL_DOWNLOADER : string :=
  "https://snapdownloader.com/tools/instagram-reels-downloader/download?url=".
Definition STORY_DOWNLOADER : string :=
  "https://snapdownloader.com/tools/instagram-story-downloader/download?url=".
Definition POST_DOWNLOADER : string :=
  "https://snapdownloader.com/tools/instagram-photo-downloader/download?url=".
Definition IGTV_DOWNLOADER : string :=
  "https://snapdownloader.com/tools/instagram-igtv-downloader/download?url=".

End Config.

(** ** What the program sees of the outside world *)

(** An [<a>] element as the extractor reads it: its classes, its [href]
    attribute and [a.get_text(strip=True)]. *)
Record anchor : Type := {
  a_class : list string;
  a_href : option string;
  a_text : string
}.

(** The parsed page, [BeautifulSoup(r.text, "html.parser")], as far as the
    selectors of the extractor look at it: the text of the first [<title>],
    the [<a>] elements in document order, and the [src] attributes of the
    [<source>] elements below a [<video>], in document order. *)
Record page : Type := {
  p_title : option string;
  p_anchors : list anchor;
  p_sources : list (option string)
}.

(** A [requests] response: status, [Content-Type] header, the page parsed
    from [r.text], and the body. *)
Record response : Type := {
  status_code : Z;
  content_type : option string;
  text : page;
  content : string
}.

(** A request either raises ([requests.exceptions.Timeout] or another
    exception [e], with [msg = str(e)]) or returns a response. *)
Inductive outcome : Type :=
  | Raised (timeout : bool) (msg : string)
  | Returned (r : response).

(** Effects: the program's requests are recorded, in order, in a log. *)
Definition io (A : Type) : Type := list string -> A * list string.

Definition ret {A : Type} (x : A) : io A := fun log => (x, log).

Definition bind {A B : Type} (m : io A) (f : A -> io B) : io B :=
  fun log => let (x, log') := m log in f x log'.

Notation "x <- m ;; k" := (bind m (fun x => k))
  (at level 100, m at next level, right associativity).

(** ** The values the program builds *)

(** One entry of [media_items], a dict with the four keys
    ['url'], ['type'], ['quality'] and ['size']. *)
Record media_item : Type := {
  item_url : string;
  item_type : string;
  item_quality : string;
  item_size : string
}.

(** The values stored in a result dict. *)
Inductive value : Type :=
  | VStr (s : string)
  | VInt (n : Z)
  | VMedia (l : list media_item)
  | VDict (d : gmap string string).

(** What a route hands back to Flask. *)
Inductive reply : Type :=
  | Json (body : gmap string value) (code : Z)
  | SendFile (download_name mimetype data : string).

(** ** [utlis/downloader.py]: the parts that touch neither network nor page *)

Definition id_char (a : ascii) : bool :=
  Re.alnum a || Ascii.eqb a "_" || Ascii.eqb a "-".

Definition name_char (a : ascii) : bool :=
  Re.alnum a || Ascii.eqb a "_" || Ascii.eqb a ".".

(** [https?://(www\.)?instagram\.com/(p|reel|reels|stories|story|tv)/[A-Za-z0-9_-]+/?] *)
Definition pattern_media : Re.regex :=
  Re.seq [Re.lit "http"; Re.opt (Re.chr "s"); Re.lit "://";
          Re.opt (Re.Group 1 (Re.lit "www."));
          Re.lit "instagram.com/";
          Re.Group 2 (Re.alts (Re.lit "p")
                        [Re.lit "reel"; Re.lit "reels"; Re.lit "stories";
                         Re.lit "story"; Re.lit "tv"]);
          Re.chr "/"; Re.plus (Re.Chr id_char); Re.opt (Re.chr "/")].

(** [https?://(www\.)?instagram\.com/[A-Za-z0-9_.]+/?] followed by the
    optional, non-capturing tail of the source pattern: [\?] and then a greedy
    run of [.] *)
Definition pattern_profile : Re.regex :=
  Re.seq [Re.lit "http"; Re.opt (Re.chr "s"); Re.lit "://";
          Re.opt (Re.Group 1 (Re.lit "www."));
          Re.lit "instagram.com/";
          Re.plus (Re.Chr name_char); Re.opt (Re.chr "/");
          Re.opt (Re.seq [Re.chr "?"; Re.Star (Re.Chr Re.dot)])].

Definition patterns : list Re.regex := [pattern_media; pattern_profile].

(** The [for pattern in patterns] loop of [sanitize_url]. *)
Fixpoint first_match (ps : list Re.regex) (url : string) : option string :=
  match ps with
  | [] => None
  | p :: ps' =>
      match Re.re_match p url with
      | Some _ => Some (Str.strip url)
      | None => first_match ps' url
      end
  end.

Definition sanitize_url (url : string) : option string :=
  let url := Str.split_head "#" (Str.split_head "?" url) in
  first_match patterns url.

Definition get_media_type (url : string) : string :=
  if Str.contains "/reel/" url || Str.contains "/reels/" url then "reel"
  else if Str.contains "/stories/" url || Str.contains "/story/" url then "story"
  else if Str.contains "/tv/" url then "igtv"
  else if Str.contains "/p/" url then "post"
  else "unknown".

Definition qualities : list string :=
  ["hd"; "high"; "720p"; "1080p"; "4k"; "sd"; "low"].

(** The [for q in qualities] loop of [_extract_quality]. *)
Fixpoint first_quality (qs : list string) (text : string) : string :=
  match qs with
  | [] => "standard"
  | q :: qs' => if Str.contains q text then q else first_quality qs' text
  end.

Definition _extract_quality (text : string) : string :=
  first_quality qualities text.

(** [(\d+(?:\.\d+)?)\s*(MB|KB|GB)] under [re.IGNORECASE] *)
Definition size_pattern : Re.regex :=
  Re.seq [Re.Group 1 (Re.Cat (Re.plus (Re.Chr Str.isdigit))
                        (Re.opt (Re.Cat (Re.chr ".")
                                   (Re.plus (Re.Chr Str.isdigit)))));
          Re.Star (Re.Chr Str.isspace);
          Re.Group 2 (Re.alts (Re.lit_i "MB") [Re.lit_i "KB"; Re.lit_i "GB"])].

(** [match.group(n)]; both groups of [size_pattern] take part in every match
    (lemma [size_groups_set]), so the default is never used. *)
Definition group (c : Re.captures) (n : nat) : string := default "" (c !! n).

Definition _extract_size (text : string) : string :=
  match Re.re_search size_pattern text with
  | Some m => group m 1 ++ " " ++ Str.upper (group m 2)
  | None => "unknown"
  end.

(** *** The extractor on a parsed page *)

Definition has_class (cls : string) (a : anchor) : bool :=
  bool_decide (cls ∈ a_class a).

(** The attribute selector [a[href*='sub']]. *)
Definition href_has (sub : string) (a : anchor) : bool :=
  match a_href a with
  | Some h => Str.contains sub h
  | None => false
  end.

(** [soup.select("a.btn-download, a.download-button, a[href*='.mp4']")] *)
Definition select_video_links (p : page) : list anchor :=
  List.filter (fun a => has_class "btn-download" a ||
                        has_class "download-button" a ||
                        href_has ".mp4" a) (p_anchors p).

(** [soup.select("a.btn-download, a.download-button, a[href*='.jpg'],
    a[href*='.jpeg'], a[href*='.png']")] *)
Definition select_image_links (p : page) : list anchor :=
  List.filter (fun a => has_class "btn-download" a ||
                        has_class "download-button" a ||
                        href_has ".jpg" a || href_has ".jpeg" a ||
                        href_has ".png" a) (p_anchors p).

Definition image_exts : list string := [".jpg"; ".jpeg"; ".png"].

(** [any(ext in s for ext in exts)] *)
Definition any_ext (exts : list string) (s : string) : bool :=
  existsb (fun ext => Str.contains ext s) exts.

(** The loop that drops later items with a url already seen. *)
Definition dedup_step (st : list media_item * gset string) (item : media_item)
    : list media_item * gset string :=
  let (unique_items, seen_urls) := st in
  if bool_decide (item_url item ∈ seen_urls) then st
  else ((unique_items ++ [item])%list, {[item_url item]} ∪ seen_urls).

Definition remove_duplicates (media_items : list media_item) : list media_item :=
  fst (fold_left dedup_step media_items ([], ∅)).

Definition error_result (message : string) : gmap string value :=
  {[ "status" := VStr "error"; "message" := VStr message ]}.

Definition success_result (media : list media_item) (metadata : gmap string string)
    : gmap string value :=
  {[ "status" := VStr "success"; "media" := VMedia media;
     "metadata" := VDict metadata; "count" := VInt (Z.of_nat (length media)) ]}.

(** [result['status'] == s] *)
Definition status_is (s : string) (result : gmap string value) : bool :=
  match result !! "status" with
  | Some (VStr s') => String.eqb s' s
  | _ => false
  end.

Section Downloader.

(** [html.unescape] and [requests.utils.quote(_, safe="")] are library
    functions the program applies to strings; [network log target] is what a
    GET of [target] comes to after the requests of [log]. *)
Variable unescape : string -> string.
Variable quote : string -> string.
Variable network : list string -> string -> outcome.

(** [session.get(target, ...)] and [requests.get(target, ...)] *)
Definition http_get (target : string) : io outcome :=
  fun log => (network log target, (log ++ [target])%list).

(** The body of the loop "For videos". *)
Definition video_step (media_items : list media_item) (a : anchor)
    : list media_item :=
  let href := unescape (default "" (a_href a)) in
  let text := Str.lower (a_text a) in
  if Str.nonempty href &&
     (Str.contains ".mp4" href || Str.contains "video" text)
  then (media_items ++ [{| item_url := href; item_type := "video";
                          item_quality := _extract_quality text;
                          item_size := _extract_size text |}])%list
  else media_items.

(** The body of the loop "For images". *)
Definition image_step (media_items : list media_item) (a : anchor)
    : list media_item :=
  let href := unescape (default "" (a_href a)) in
  let text := Str.lower (a_text a) in
  if Str.nonempty href && any_ext image_exts href
  then (media_items ++ [{| item_url := href; item_type := "image";
                          item_quality := _extract_quality text;
                          item_size := _extract_size text |}])%list
  else media_items.

(** The body of the loop over [soup.select("video source")]. *)
Definition source_step (media_items : list media_item) (src : option string)
    : list media_item :=
  let src := unescape (default "" src) in
  if Str.nonempty src && Str.contains ".mp4" src
  then (media_items ++ [{| item_url := src; item_type := "video";
                          item_quality := "unknown";
                          item_size := "unknown" |}])%list
  else media_items.

(** [media_items] after the three loops. *)
Definition collect (p : page) : list media_item :=
  let media_items := [] in
  let media_items := fold_left video_step (select_video_links p) media_items in
  let media_items := fold_left image_step (select_image_links p) media_items in
  fold_left source_step (p_sources p) media_items.

Definition page_metadata (p : page) : gmap string string :=
  match p_title p with
  | Some t => {[ "title" := Str.strip t ]}
  | None => ∅
  end.

(** [download_from_snapdownloader] from the parsed page on. *)
Definition extract (p : page) : gmap string value :=
  let metadata := page_metadata p in
  let unique_items := remove_duplicates (collect p) in
  match unique_items with
  | _ :: _ => success_result unique_items metadata
  | [] => error_result "No media found"
  end.

Definition download_from_snapdownloader (url downloader_url : string)
    : io (gmap string value) :=
  let target := downloader_url ++ quote url in
  r <- http_get target ;;
  match r with
  | Raised true _ => ret (error_result "Request timeout")
  | Raised false msg => ret (error_result msg)
  | Returned r =>
      if negb (status_code r =? 200)%Z
      then ret (error_result ("Failed to load page: " ++ pretty (status_code r)))
      else ret (extract (text r))
  end.

Definition get_reel (url : string) : io (gmap string value) :=
  download_from_snapdownloader url Config.REEL_DOWNLOADER.

Definition get_story (url : string) : io (gmap string value) :=
  download_from_snapdownloader url Config.STORY_DOWNLOADER.

Definition get_post (url : string) : io (gmap string value) :=
  download_from_snapdownloader url Config.POST_DOWNLOADER.

Definition get_igtv (url : string) : io (gmap string value) :=
  download_from_snapdownloader url Config.IGTV_DOWNLOADER.

(** The loop [for func in [...]] of [get_all].  Every result carries the key
    ['status'] (lemma [download_has_status]), so [result['status']] never
    raises. *)
Fixpoint try_all (funcs : list (string -> io (gmap string value)))
    (url : string) : io (gmap string value) :=
  match funcs with
  | [] => ret (error_result "Unable to download media")
  | func :: funcs' =>
      result <- func url ;;
      if status_is "success" result
      then ret result
      else try_all funcs' url
  end.

Definition get_all (url : string) : io (gmap string value) :=
  let media_type := get_media_type url in
  if String.eqb media_type "reel" then get_reel url
  else if String.eqb media_type "story" then get_story url
  else if String.eqb media_type "igtv" then get_igtv url
  else if String.eqb media_type "post" then get_post url
  else try_all [get_reel; get_post; get_igtv] url.

(** ** [app.py]: the [/proxy] route

    [args_url] is [request.args.get('url')]. *)
Definition proxy_exts : list string := [".mp4"; ".jpg"; ".jpeg"; ".png"].

Definition proxy_download (args_url : option string) : io reply :=
  match args_url with
  | None | Some "" =>
      ret (Json (error_result "Please provide 'url' parameter") 400)
  | Some media_url =>
      if negb (any_ext proxy_exts (Str.lower media_url))
      then ret (Json (error_result "Invalid media URL") 400)
      else
        r <- http_get media_url ;;
        match r with
        | Raised _ msg => ret (Json (error_result ("Server error: " ++ msg)) 500)
        | Returned r =>
            if negb (status_code r =? 200)%Z
            then ret (Json (error_result
                        ("Failed to download media: " ++ pretty (status_code r)))
                        500)
            else ret (SendFile (Str.split_last "/" media_url)
                        (default "application/octet-stream" (content_type r))
                        (content r))
        end
  end.

End Downloader.

(** ** [app.py]: the rate limiter

    [time.time()] is passed in as [current_time], an exact rational number of
    seconds; [request_counts] is the module-level dict, threaded through. *)

Record counter : Type := {
  count : Z;
  timestamp : Q
}.

Definition check_rate_limit (ip : string) (current_time : Q)
    (request_counts : gmap string counter) : bool * gmap string counter :=
  match request_counts !! ip with
  | None =>
      (true, <[ip := {| count := 1; timestamp := current_time |}]> request_counts)
  | Some e =>
      if Qlt_le_dec 3600 (current_time - timestamp e)
      then (true, <[ip := {| count := 1; timestamp := current_time |}]>
                    request_counts)
      else if (100 <=? count e)%Z then (false, request_counts)
      else (true, <[ip := {| count := count e + 1; timestamp := timestamp e |}]>
                    request_counts)
  end.

Record request : Type := {
  path : string;
  remote_addr : string
}.

(** [None] lets the request through to its route. *)
Definition before_request (req : request) (current_time : Q)
    (request_counts : gmap string counter)
    : option reply * gmap string counter :=
  if String.eqb (path req) "/health" then (None, request_counts)
  else
    let ip := remote_addr req in
    let (ok, request_counts) := check_rate_limit ip current_time request_counts in
    if negb ok
    then (Some (Json (error_result "Rate limit exceeded. Please try again later.")
                  429), request_counts)
    else (None, request_counts).

(** The hook run over a sequence of timed requests. *)
Fixpoint serve (reqs : list (request * Q)) (request_counts : gmap string counter)
    : list (option reply) * gmap string counter :=
  match reqs with
  | [] => ([], request_counts)
  | (req, t) :: reqs' =>
      let (r, request_counts) := before_request req t request_counts in
      let (rs, request_counts) := serve reqs' request_counts in
      (r :: rs, request_counts)
  end.


(** ** [app.py]: the JSON routes

    [request.get_json()] as the routes meet it: [None] when it returns
    [None], and otherwise a JSON object whose values are strings or values of
    another Python type, of which the routes only ever see the type name
    ([int], [float], [bool], [NoneType], [list], [dict]).  Bodies on which
    [get_json] itself raises, and bodies that are neither [None] nor an
    object, are outside this model. *)

Inductive jvalue : Type :=
  | JStr (s : string)
  | JOther (type_name : string).

(** [str(e)] of the [AttributeError] that [url.split] raises in
    [sanitize_url] when [url] is not a string. *)
Definition no_split (type_name : string) : string :=
  "'" ++ type_name ++ "' object has no attribute 'split'".

Definition missing_url : reply :=
  Json (error_result "Please provide 'url' in JSON body") 400.

Definition invalid_url : reply :=
  Json (error_result "Invalid Instagram URL") 400.

Definition server_error (msg : string) : reply :=
  Json (error_result ("Server error: " ++ msg)) 500.

(** The opening shared by the three routes: the body check, then
    [sanitize_url], then the route's own work on the sanitized URL [k url];
    the [AttributeError] of a non-string url is caught by the route's
    [except Exception]. *)
Definition with_url (data : option (gmap string jvalue))
    (k : string -> io reply) : io reply :=
  match data with
  | None => ret missing_url
  | Some data =>
      if (size data =? 0)%nat || negb (bool_decide (is_Some (data !! "url")))
      then ret missing_url
      else
        match data !! "url" with
        | Some (JStr s) =>
            match sanitize_url s with
            | None | Some "" => ret invalid_url
            | Some url => k url
            end
        | Some (JOther type_name) => ret (server_error (no_split type_name))
        | None => ret missing_url
        end
  end.

(** [result.get(key, default)] at the three types [get_info] uses it at. *)
Definition get_or (key : string) (dflt : value) (result : gmap string value)
    : value :=
  default dflt (result !! key).

Section Routes.

Variable unescape : string -> string.
Variable quote : string -> string.
Variable network : list string -> string -> outcome.

(** [POST /download] *)
Definition download_all (data : option (gmap string jvalue)) : io reply :=
  with_url data (fun url =>
    result <- get_all unescape quote network url ;;
    ret (Json result 200)).


(** [POST /info] *)
Definition get_info (data : option (gmap string jvalue)) : io reply :=
  with_url data (fun url =>
    result <- get_all unescape quote network url ;;
    if status_is "success" result
    then
      let info : gmap string value :=
        {[ "status" := VStr "success";
           "url" := VStr url;
           "media_type" := VStr (get_media_type url);
           "media_count" := get_or "count" (VInt 0) result;
           "media_items" := get_or "media" (VMedia []) result;
           "metadata" := get_or "metadata" (VDict ∅) result ]} in
      ret (Json info 200)
    else ret (Json result 200)).

End Routes.

(** [not_found] and [method_not_allowed] *)
Definition not_found : reply := Json (error_result "Endpoint not found") 404.

Definition method_not_allowed : reply :=
  Json (error_result "Method not allowed") 405.

(** ** The accepted URL grammar, in the words of the specification

    Matching is anchored at the start only, so an accepted URL is any text
    that begins with one of the two shapes. *)

Definition is_scheme (s : string) : Prop := s = "http" \/ s = "https".

Definition is_host (s : string) : Prop :=
  s = "instagram.com" \/ s = "www.instagram.com".

Definition is_segment (s : string) : Prop :=
  In s ["p"; "reel"; "reels"; "stories"; "story"; "tv"].

(** A non-empty run of letters, digits, underscores and hyphens. *)
Definition is_ident (s : string) : Prop := s <> "" /\ Str.all id_char s = true.

(** A non-empty run of letters, digits, underscores and dots. *)
Definition is_name (s : string) : Prop := s <> "" /\ Str.all name_char s = true.

Definition media_url (url : string) : Prop :=
  exists scheme host seg ident rest,
    url = scheme ++ "://" ++ host ++ "/" ++ seg ++ "/" ++ ident ++ rest /\
    is_scheme scheme /\ is_host host /\ is_segment seg /\ is_ident ident.

Definition profile_url (url : string) : Prop :=
  exists scheme host name rest,
    url = scheme ++ "://" ++ host ++ "/" ++ name ++ rest /\
    is_scheme scheme /\ is_host host /\ is_name name.

Definition accepted (url : string) : Prop := media_url url \/ profile_url url.

(** The characters other than [c], and the two characters at which
    [sanitize_url] cuts. *)
Definition other_than (c a : ascii) : bool := negb (Ascii.eqb a c).

Definition is_cut (c : ascii) : Prop := c = "?"%char \/ c = "#"%char.

(** [occurs needle hay]: [needle] is a substring of [hay]. *)
Definition occurs (needle hay : string) : Prop :=
  exists pre post, hay = pre ++ needle ++ post.

(** Stand-ins for the two library functions in closed examples:
    [html.unescape] changes nothing in a text without an ampersand, which is
    all the examples apply it to; the examples do not look into the value of
    [requests.utils.quote]. *)
Definition unescape_plain (s : string) : string := s.
Definition quote_sample (s : string) : string := s.

(** [first_with_url l item]: [item] stands in [l] where its url is seen for
    the first time. *)
Definition first_with_url (l : list media_item) (item : media_item) : Prop :=
  exists l1 l2 : list media_item,
    l = (l1 ++ item :: l2)%list /\ item_url item ∉ item_url <$> l1.

(** The endpoint configured for a media type. *)
Definition endpoint_of (media_type : string) : string :=
  if String.eqb media_type "reel" then Config.REEL_DOWNLOADER
  else if String.eqb media_type "story" then Config.STORY_DOWNLOADER
  else if String.eqb media_type "igtv" then Config.IGTV_DOWNLOADER
  else Config.POST_DOWNLOADER.

(** A network on which every request times out, for closed examples. *)
Definition network_down (log : list string) (target : string) : outcome :=
  Raised true "timed out".

(** ** The rate limit, in the words of the specification *)

(** The requests that count against [ip]: its own, except those to [/health]. *)
Definition counts_for (ip : string) (x : request * Q) : bool :=
  negb (String.eqb (path (fst x)) "/health") &&
  String.eqb (remote_addr (fst x)) ip.

Definition counted (ip : string) (l : list (request * Q)) : nat :=
  length (List.filter (counts_for ip) l).

(** The answer to a request over the limit. *)
Definition rate_limited : option reply :=
  Some (Json (error_result "Rate limit exceeded. Please try again later.") 429).

(** A request of [ip] at time [t0] starts a window: [ip] has no counter yet,
    or more than 3600 seconds have gone by since its counter was started. *)
Definition starts_window (ip : string) (t0 : Q)
    (request_counts : gmap string counter) : Prop :=
  match request_counts !! ip with
  | None => True
  | Some e => (3600 < t0 - timestamp e)%Q
  end.

(** The counter of [ip] in a window started at [t0], after [n] counted
    requests. *)
Definition in_window (ip : string) (t0 : Q) (n : nat)
    (request_counts : gmap string counter) : Prop :=
  request_counts !! ip =
  Some {| count := Z.of_nat (Nat.min n 100); timestamp := t0 |}.

(** ** A size in a text, in the words of the specification *)

Definition is_digits (s : string) : Prop :=
  s <> "" /\ Str.all Str.isdigit s = true.

(** A number, optionally with a decimal part. *)
Definition is_number (n : string) : Prop :=
  is_digits n \/
  exists d1 d2, n = d1 ++ "." ++ d2 /\ is_digits d1 /\ is_digits d2.

(** MB, KB or GB in any mix of capitals and small letters. *)
Definition is_unit (u : string) : Prop :=
  Str.lower u = "mb" \/ Str.lower u = "kb" \/ Str.lower u = "gb".

(** [size_at text pre n u]: right after [pre], the text goes on with the
    number [n], possibly some white space, and the unit [u]. *)
Definition size_at (text pre n u : string) : Prop :=
  exists ws post,
    text = pre ++ n ++ ws ++ u ++ post /\
    is_number n /\ Str.all Str.isspace ws = true /\ is_unit u.

(** A pattern without capturing groups. *)
Fixpoint group_free (r : Re.regex) : bool :=
  match r with
  | Re.Eps | Re.Chr _ => true
  | Re.Cat r1 r2 | Re.Alt r1 r2 => group_free r1 && group_free r2
  | Re.Star r1 => group_free r1
  | Re.Group _ _ => false
  end.

(** The two groups of [size_pattern], taken apart. *)
Definition number_pattern : Re.regex :=
  Re.Cat (Re.plus (Re.Chr Str.isdigit))
    (Re.opt (Re.Cat (Re.chr ".") (Re.plus (Re.Chr Str.isdigit)))).

Definition unit_pattern : Re.regex :=
  Re.alts (Re.lit_i "MB") [Re.lit_i "KB"; Re.lit_i "GB"].

(** The first character of [s], if there is one, is outside the class [p]. *)
Definition head_not (p : ascii -> bool) (s : string) : Prop :=
  match s with
  | "" => True
  | String a _ => p a = false
  end.

(** The characters a number is written with. *)
Definition number_char (a : ascii) : bool := Str.isdigit a || Ascii.eqb a ".".

(** The characters that are neither white space nor a cut character. *)
Definition plain_char (a : ascii) : bool :=
  negb (Str.isspace a) && other_than "?" a && other_than "#" a.

(** The two shapes of a result dict. *)
Definition well_formed (r : gmap string value) : Prop :=
  (exists media metadata,
     media <> [] /\ NoDup (item_url <$> media) /\
     r = success_result media metadata) \/
  (exists msg, r = error_result msg).



(** The URL [sanitize_url] makes of an accepted input. *)
Definition sanitized (s : string) : string :=
  Str.strip (Str.split_head "#" (Str.split_head "?" s)).

(** The urls [/proxy] sends for: not empty, and holding one of the four
    extensions somewhere once put in small letters. *)
Definition fetchable (media_url : string) : Prop :=
  media_url <> "" /\
  exists ext, ext ∈ proxy_exts /\ occurs ext (Str.lower media_url).

(** A network that answers every request with status 200 and a small
    body, for closed examples. *)
Definition network_ok (log : list string) (target : string) : outcome :=
  Returned {| status_code := 200; content_type := Some "video/mp4";
              text := {| p_title := None; p_anchors := []; p_sources := [] |};
              content := "bytes" |}.

(** Every counter stands between 1 and 100. *)
Definition counts_in_range (request_counts : gmap string counter) : Prop :=
  forall ip e, request_counts !! ip = Some e -> (1 <= count e <= 100)%Z.

(** The addresses of the requests that go through the limiter. *)
Definition limited_addrs (reqs : list (request * Q)) : gset string :=
  list_to_set
    (List.map (fun x => remote_addr (fst x))
       (List.filter (fun x => negb (String.eqb (path (fst x)) "/health")) reqs)).

(** The replies to the requests that count against [ip], picked out of the
    replies to all requests. *)
Fixpoint replies_for (ip : string) (reqs : list (request * Q))
    (replies : list (option reply)) : list (option reply) :=
  match reqs, replies with
  | x :: reqs', r :: replies' =>
      if counts_for ip x then r :: replies_for ip reqs' replies'
      else replies_for ip reqs' replies'
  | _, _ => []
  end.

(* ===================================================================== *)
(** * Part II: properties                                                 *)
(* ===================================================================== *)

(** ** Strings *)

Module StrFacts.
Import Str.

Lemma app_cons a (s t : string) : String a s ++ t = String a (s ++ t).
Proof. reflexivity. Qed.

Lemma app_nil_l (s : string) : "" ++ s = s.
Proof. reflexivity. Qed.

Lemma app_nil_r (s : string) : s ++ "" = s.
Proof. induction s as [|a s IH]; [reflexivity|]. now rewrite app_cons, IH. Qed.

Lemma app_assoc (s t u : string) : s ++ t ++ u = (s ++ t) ++ u.
Proof.
  induction s as [|a s IH]; [reflexivity|]. now rewrite !app_cons, IH.
Qed.

Lemma length_app (s t : string) :
  String.length (s ++ t) = (String.length s + String.length t)%nat.
Proof.
  induction s as [|a s IH]; [reflexivity|].
  rewrite app_cons. simpl. now rewrite IH.
Qed.

Lemma app_eq_nil (s t : string) : s ++ t = "" -> s = "" /\ t = "".
Proof.
  destruct s; [rewrite app_nil_l; now intros ->|].
  rewrite app_cons. discriminate.
Qed.

Lemma length_zero (s : string) : String.length s = 0%nat -> s = "".
Proof. now destruct s. Qed.

Lemma app_inv_head (s t u : string) : s ++ t = s ++ u -> t = u.
Proof.
  induction s as [|a s IH]; [easy|]. rewrite !app_cons. intros [= H]. auto.
Qed.

Lemma all_app p s t : all p (s ++ t) = all p s && all p t.
Proof.
  induction s as [|a s IH]; [reflexivity|].
  rewrite app_cons. simpl. now rewrite IH, andb_assoc.
Qed.

Lemma take_app (w rest : string) : take (String.length w) (w ++ rest) = w.
Proof.
  induction w as [|a w IH]; [now destruct rest|].
  rewrite app_cons. simpl. now rewrite IH.
Qed.

Lemma prefix_app (p s : string) :
  String.prefix p s = true <-> exists rest, s = p ++ rest.
Proof.
  revert s. induction p as [|a p IH]; intros s.
  - split; [intros _; now exists s|]. now destruct s.
  - destruct s as [|b s]; simpl.
    + split; [discriminate|]. now intros [rest H].
    + destruct (ascii_dec a b) as [->|Hab].
      * rewrite IH. split; intros [rest H]; exists rest.
        -- now rewrite app_cons, H.
        -- rewrite app_cons in H. now injection H.
      * split; [discriminate|]. intros [rest H].
        rewrite app_cons in H. injection H as H1 _. congruence.
Qed.

Lemma contains_unfold (needle hay : string) :
  contains needle hay =
  String.prefix needle hay ||
  match hay with "" => false | String _ hay' => contains needle hay' end.
Proof. now destruct hay. Qed.

(** [needle in hay] holds exactly when [needle] occurs somewhere in [hay]. *)
Lemma contains_spec (needle hay : string) :
  contains needle hay = true <->
  exists pre post, hay = pre ++ needle ++ post.
Proof.
  induction hay as [|b hay IH]; rewrite contains_unfold.
  - rewrite orb_false_r, prefix_app. split.
    + intros [rest H]. now exists "", rest.
    + intros [pre [post H]]. symmetry in H.
      apply app_eq_nil in H as [-> H]. now exists post.
  - rewrite orb_true_iff, IH, prefix_app. split.
    + intros [[rest H]|[pre [post H]]].
      * now exists "", rest.
      * exists (String b pre), post. now rewrite app_cons, H.
    + intros [[|a pre] [post H]].
      * left. now exists post.
      * right. rewrite app_cons in H. injection H as _ H. now exists pre, post.
Qed.

End StrFacts.

(** ** The matcher against the meaning of patterns *)

Module ReFacts.
Import Re StrFacts.

Section StarLoop.

Context {A : Type}.
Variable body : string -> captures -> (string -> captures -> option A) -> option A.
Variable k : string -> captures -> option A.
Variable r : regex.

Hypothesis body_sound : forall s c k' x,
  body s c k' = Some x ->
  exists w rest c', s = w ++ rest /\ matches r w c c' /\ k' rest c' = Some x.

Lemma star_loop_sound fuel s c x :
  star_loop body k fuel s c = Some x ->
  exists w rest c', s = w ++ rest /\ matches (Star r) w c c' /\ k rest c' = Some x.
Proof.
  revert s c. induction fuel as [|fuel IH]; intros s c; simpl.
  - intros H. exists "", s, c. repeat split; [constructor|exact H].
  - destruct (body s c _) as [y|] eqn:E.
    + intros [= ->]. apply body_sound in E as (w1 & rest1 & c1 & -> & Hm & Hk).
      destruct (_ <? _)%nat eqn:Hlt; [|discriminate].
      apply IH in Hk as (w2 & rest & c2 & -> & Hm2 & Hk).
      exists (w1 ++ w2), rest, c2. repeat split; [apply app_assoc| |exact Hk].
      apply M_star_cons with c1; [|exact Hm|exact Hm2].
      intros ->. apply Nat.ltb_lt in Hlt. rewrite app_nil_l in Hlt. lia.
    + intros H. exists "", s, c. repeat split; [constructor|exact H].
Qed.

Hypothesis body_complete : forall w c c',
  matches r w c c' -> forall rest k',
  is_Some (k' rest c') -> is_Some (body (w ++ rest) c k').

Lemma star_loop_complete w c c' :
  matches (Star r) w c c' -> forall fuel rest,
  (String.length (w ++ rest) <= fuel)%nat ->
  is_Some (k rest c') -> is_Some (star_loop body k fuel (w ++ rest) c).
Proof.
  remember (Star r) as R eqn:HR. intros Hm. revert HR.
  induction Hm as [| | | | | r0 c | r0 w1 w2 c c1 c2 Hne Hm1 _ Hm2 IH2 |];
    try discriminate; intros [= ->] fuel rest Hfuel Hk.
  - rewrite app_nil_l. destruct fuel; simpl; [exact Hk|].
    now destruct (body rest c _).
  - destruct fuel as [|fuel].
    { rewrite <- app_assoc, length_app in Hfuel. destruct w1; [easy|simpl in Hfuel; lia]. }
    simpl. rewrite <- app_assoc.
    destruct (body (w1 ++ w2 ++ rest) c _) as [y|] eqn:E; [eauto|].
    eapply body_complete in Hm1 as [y Hy]; [rewrite E in Hy; discriminate|].
    assert (String.length (w2 ++ rest) < String.length (w1 ++ w2 ++ rest))%nat as Hlt.
    { rewrite (length_app w1). destruct w1; [easy|simpl; lia]. }
    apply Nat.ltb_lt in Hlt as Hlt'. cbv beta. rewrite Hlt'.
    apply IH2; [reflexivity| |exact Hk].
    rewrite <- app_assoc in Hfuel. lia.
Qed.

End StarLoop.

(** Whatever the matcher finds is a match of the pattern. *)
Lemma bt_sound r : forall (A : Type) s c (k : string -> captures -> option A) x,
  bt r s c k = Some x ->
  exists w rest c', s = w ++ rest /\ matches r w c c' /\ k rest c' = Some x.
Proof.
  induction r as [|p|r1 IH1 r2 IH2|r1 IH1 r2 IH2|r IH|n r IH];
    intros A s c k x; simpl.
  - intros H. exists "", s, c. repeat split; [constructor|exact H].
  - destruct s as [|a s]; [discriminate|].
    destruct (p a) eqn:Hp; [|discriminate]. intros H.
    exists (String a ""), s, c. repeat split; [now constructor|exact H].
  - intros H. apply IH1 in H as (w1 & rest1 & c1 & -> & Hm1 & H).
    apply IH2 in H as (w2 & rest & c2 & -> & Hm2 & H).
    exists (w1 ++ w2), rest, c2. repeat split; [apply app_assoc| |exact H].
    now apply M_cat with c1.
  - destruct (bt r1 s c k) as [y|] eqn:E.
    + intros [= ->]. apply IH1 in E as (w & rest & c' & -> & Hm & H).
      exists w, rest, c'. repeat split; [now apply M_alt_l|exact H].
    + intros H. apply IH2 in H as (w & rest & c' & -> & Hm & H).
      exists w, rest, c'. repeat split; [now apply M_alt_r|exact H].
  - apply star_loop_sound. intros s' c' k' y. apply IH.
  - intros H. apply IH in H as (w & rest & c' & -> & Hm & H).
    rewrite length_app, Nat.add_sub, take_app in H.
    exists w, rest, (<[n := w]> c'). repeat split; [now constructor|exact H].
Qed.

(** Whenever the pattern has a match that the continuation accepts, the
    matcher finds some match. *)
Lemma bt_complete r : forall w c c',
  matches r w c c' ->
  forall (A : Type) rest (k : string -> captures -> option A),
  is_Some (k rest c') -> is_Some (bt r (w ++ rest) c k).
Proof.
  induction r as [|p|r1 IH1 r2 IH2|r1 IH1 r2 IH2|r IH|n r IH];
    intros w c c' Hm A rest k Hk; simpl.
  - inversion Hm; subst. exact Hk.
  - inversion Hm as [|p' a c0 Hp| | | | | |]; subst.
    rewrite app_cons, app_nil_l, Hp. exact Hk.
  - inversion Hm as [| |? ? w1 w2 ? c1 ? Hm1 Hm2| | | | |]; subst.
    rewrite <- app_assoc. eapply IH1; [exact Hm1|]. cbv beta. eapply IH2; eauto.
  - inversion Hm as [| | |? ? ? ? ? Hm1|? ? ? ? ? Hm2| | |]; subst.
    + eapply IH1 in Hm1 as [y ->]; eauto.
    + destruct (bt r1 (w ++ rest) c k); [eauto|]. eapply IH2; eauto.
  - eapply star_loop_complete with (r := r); eauto.
  - inversion Hm as [| | | | | | |? ? ? ? c1 Hm1]; subst.
    eapply IH; [exact Hm1|]. cbv beta.
    now rewrite length_app, Nat.add_sub, take_app.
Qed.

(** A match does not depend on the groups it starts from. *)
Lemma matches_any_start r w c c' :
  matches r w c c' -> forall d, exists d', matches r w d d'.
Proof.
  induction 1 as [c|p a c Hp|r1 r2 w1 w2 c c1 c2 _ IH1 _ IH2
                 |r1 r2 w c c1 _ IH|r1 r2 w c c1 _ IH|r c
                 |r w1 w2 c c1 c2 Hne _ IH1 _ IH2|n r w c c1 _ IH]; intros d.
  - eexists. constructor.
  - eexists. now constructor.
  - destruct (IH1 d) as [d1 H1]. destruct (IH2 d1) as [d2 H2].
    eexists. eapply M_cat; eauto.
  - destruct (IH d) as [d1 H1]. eexists. eapply M_alt_l; eauto.
  - destruct (IH d) as [d1 H1]. eexists. eapply M_alt_r; eauto.
  - eexists. constructor.
  - destruct (IH1 d) as [d1 H1]. destruct (IH2 d1) as [d2 H2].
    eexists. eapply M_star_cons; eauto.
  - destruct (IH d) as [d1 H1]. eexists. eapply M_group; eauto.
Qed.

(** [re.match] succeeds exactly on the texts with a prefix in the language. *)
Lemma re_match_Some r s c' :
  re_match r s = Some c' -> exists w rest, s = w ++ rest /\ matches r w ∅ c'.
Proof.
  intros H. apply bt_sound in H as (w & rest & c1 & -> & Hm & [= ->]). eauto.
Qed.

Lemma re_match_iff r s :
  is_Some (re_match r s) <-> exists w rest, s = w ++ rest /\ in_lang r w.
Proof.
  split.
  - intros [c' H]. apply re_match_Some in H as (w & rest & -> & Hm).
    exists w, rest. split; [reflexivity|]. now exists ∅, c'.
  - intros (w & rest & -> & c & c' & Hm).
    destruct (matches_any_start _ _ _ _ Hm ∅) as [d' Hd].
    eapply bt_complete; eauto.
Qed.

Lemma re_match_None r s :
  re_match r s = None ->
  forall w rest, s = w ++ rest -> ~ in_lang r w.
Proof.
  intros H w rest -> Hin.
  assert (is_Some (re_match r (w ++ rest))) as [c' Hc]
    by (apply re_match_iff; eauto).
  congruence.
Qed.

(** [re.search] returns the groups of a match at the leftmost position where
    the pattern matches at all. *)
Lemma re_search_Some r s c' :
  re_search r s = Some c' ->
  exists pre w rest,
    s = pre ++ w ++ rest /\ matches r w ∅ c' /\
    forall pre' w' rest', s = pre' ++ w' ++ rest' -> in_lang r w' ->
                          (String.length pre <= String.length pre')%nat.
Proof.
  induction s as [|a s IH]; simpl.
  - destruct (re_match r "") as [c|] eqn:E; [|discriminate].
    intros [= ->]. apply re_match_Some in E as (w & rest & E & Hm).
    exists "", w, rest. repeat split; [exact E|exact Hm|]. simpl. lia.
  - destruct (re_match r (String a s)) as [c|] eqn:E.
    + intros [= ->]. apply re_match_Some in E as (w & rest & E & Hm).
      exists "", w, rest. repeat split; [exact E|exact Hm|]. simpl. lia.
    + intros H. apply IH in H as (pre & w & rest & -> & Hm & Hmin).
      exists (String a pre), w, rest. repeat split; [exact Hm|].
      intros [|b pre'] w' rest' Heq Hin.
      * exfalso. now apply (re_match_None _ _ E w' rest').
      * rewrite app_cons in Heq. injection Heq as _ Heq.
        apply Hmin in Heq; [simpl; lia|exact Hin].
Qed.

Lemma re_search_None r s :
  re_search r s = None ->
  forall pre w rest, s = pre ++ w ++ rest -> ~ in_lang r w.
Proof.
  induction s as [|a s IH]; simpl.
  - destruct (re_match r "") eqn:E; [discriminate|]. intros _ pre w rest Heq.
    symmetry in Heq. apply app_eq_nil in Heq as [-> Heq].
    now apply (re_match_None _ _ E w rest).
  - destruct (re_match r (String a s)) eqn:E; [discriminate|].
    intros H [|b pre] w rest Heq.
    + now apply (re_match_None _ _ E w rest).
    + rewrite app_cons in Heq. injection Heq as _ Heq. now apply (IH H pre w rest).
Qed.

(** *** The language of each construct *)

Lemma in_lang_eps w : in_lang Eps w <-> w = "".
Proof.
  split.
  - intros (c & c' & H). now inversion H.
  - intros ->. exists ∅, ∅. constructor.
Qed.

Lemma in_lang_Chr p w : in_lang (Chr p) w <-> exists a, w = String a "" /\ p a = true.
Proof.
  split.
  - intros (c & c' & H). inversion H; subst. eauto.
  - intros (a & -> & Hp). exists ∅, ∅. now constructor.
Qed.

Lemma in_lang_cat r1 r2 w :
  in_lang (Cat r1 r2) w <->
  exists w1 w2, w = w1 ++ w2 /\ in_lang r1 w1 /\ in_lang r2 w2.
Proof.
  split.
  - intros (c & c' & H). inversion H; subst.
    eexists _, _. split; [reflexivity|]. split; eexists _, _; eauto.
  - intros (w1 & w2 & -> & (c & c1 & H1) & (d & d1 & H2)).
    destruct (matches_any_start _ _ _ _ H2 c1) as [c2 H2'].
    exists c, c2. now apply M_cat with c1.
Qed.

Lemma in_lang_alt r1 r2 w : in_lang (Alt r1 r2) w <-> in_lang r1 w \/ in_lang r2 w.
Proof.
  split.
  - intros (c & c' & H). inversion H; subst; [left|right]; eexists _, _; eauto.
  - intros [(c & c' & H)|(c & c' & H)]; exists c, c';
      [now apply M_alt_l|now apply M_alt_r].
Qed.

Lemma in_lang_group n r w : in_lang (Group n r) w <-> in_lang r w.
Proof.
  split.
  - intros (c & c' & H). inversion H; subst. eexists _, _; eauto.
  - intros (c & c' & H). eexists _, _. constructor. eauto.
Qed.

Lemma in_lang_opt r w : in_lang (opt r) w <-> in_lang r w \/ w = "".
Proof. unfold opt. now rewrite in_lang_alt, in_lang_eps. Qed.

Lemma in_lang_chr a w : in_lang (chr a) w <-> w = String a "".
Proof.
  unfold chr. rewrite in_lang_Chr. split.
  - intros (b & -> & Hb). apply Ascii.eqb_eq in Hb. now subst.
  - intros ->. exists a. split; [reflexivity|apply Ascii.eqb_refl].
Qed.

Lemma in_lang_lit s w : in_lang (lit s) w <-> w = s.
Proof.
  revert w. induction s as [|a s IH]; intros w; simpl.
  - apply in_lang_eps.
  - rewrite in_lang_cat. split.
    + intros (w1 & w2 & -> & H1 & H2). apply in_lang_chr in H1 as ->.
      apply IH in H2 as ->. reflexivity.
    + intros ->. exists (String a ""), s. split; [reflexivity|].
      split; [now apply in_lang_chr|now apply IH].
Qed.

(** A greedy run over a character class matches the texts of that class. *)
Lemma in_lang_star_class p w : in_lang (Star (Chr p)) w <-> Str.all p w = true.
Proof.
  split.
  - intros (c & c' & H). remember (Star (Chr p)) as R eqn:HR. revert HR.
    induction H as [| | | | | |r w1 w2 c c1 c2 Hne H1 _ H2 IH2|];
      try discriminate; intros [= ->]; [reflexivity|].
    inversion H1; subst. rewrite app_cons, app_nil_l. simpl.
    rewrite IH2 by reflexivity. now rewrite andb_true_r.
  - induction w as [|a w IH]; simpl.
    + intros _. exists ∅, ∅. constructor.
    + intros [Ha Hw]%andb_true_iff. destruct (IH Hw) as (c & c' & H).
      destruct (matches_any_start _ _ _ _ H ∅) as [d H'].
      exists ∅, d. change (String a w) with (String a "" ++ w).
      apply M_star_cons with ∅; [discriminate|now constructor|exact H'].
Qed.

Lemma in_lang_plus_class p w :
  in_lang (plus (Chr p)) w <-> w <> "" /\ Str.all p w = true.
Proof.
  unfold plus. rewrite in_lang_cat. split.
  - intros (w1 & w2 & -> & H1 & H2). apply in_lang_Chr in H1 as (a & -> & Ha).
    apply in_lang_star_class in H2. rewrite app_cons, app_nil_l. simpl.
    now rewrite Ha, H2.
  - intros [Hne H]. destruct w as [|a w]; [easy|]. simpl in H.
    apply andb_true_iff in H as [Ha Hw]. exists (String a ""), w.
    split; [reflexivity|]. split; [apply in_lang_Chr; eauto|].
    now apply in_lang_star_class.
Qed.

End ReFacts.

(** ** [sanitize_url] *)

Module SanitizeFacts.
Import Re ReFacts StrFacts.

Lemma in_lang_app r1 r2 w1 w2 :
  in_lang r1 w1 -> in_lang r2 w2 -> in_lang (Cat r1 r2) (w1 ++ w2).
Proof. intros H1 H2. apply in_lang_cat. eauto 6. Qed.

Ltac lang_inv :=
  repeat match goal with
  | H : in_lang (Cat _ _) _ |- _ =>
      apply in_lang_cat in H as (? & ? & -> & ? & ?)
  | H : in_lang (lit _) _ |- _ => apply in_lang_lit in H as ->
  | H : in_lang (chr _) _ |- _ => apply in_lang_chr in H as ->
  | H : in_lang Eps _ |- _ => apply in_lang_eps in H as ->
  | H : in_lang (Group _ _) _ |- _ => apply in_lang_group in H
  | H : in_lang (plus (Chr _)) _ |- _ => apply in_lang_plus_class in H
  end.

Lemma scheme_lang s1 : in_lang (opt (chr "s")) s1 <-> is_scheme ("http" ++ s1).
Proof.
  rewrite in_lang_opt, in_lang_chr. unfold is_scheme. split.
  - intros [->| ->]; auto.
  - intros [H|H]; [right|left]; now injection H.
Qed.

Lemma host_lang w1 :
  in_lang (opt (Group 1 (lit "www."))) w1 -> is_host (w1 ++ "instagram.com").
Proof.
  rewrite in_lang_opt, in_lang_group, in_lang_lit. unfold is_host.
  intros [->| ->]; auto.
Qed.

Lemma segment_lang seg :
  in_lang (alts (lit "p")
             [lit "reel"; lit "reels"; lit "stories"; lit "story"; lit "tv"])
    seg <-> is_segment seg.
Proof.
  cbn [alts]. rewrite !in_lang_alt, !in_lang_lit.
  unfold is_segment. simpl. intuition congruence.
Qed.

Lemma is_scheme_inv s : is_scheme s -> exists s1, s = "http" ++ s1 /\ is_scheme ("http" ++ s1).
Proof. intros [->| ->]; [exists ""|exists "s"]; split; try reflexivity; [left|right]; reflexivity. Qed.

Lemma is_host_inv h :
  is_host h ->
  exists w1, h = w1 ++ "instagram.com" /\ in_lang (opt (Group 1 (lit "www."))) w1.
Proof.
  intros [->| ->]; [exists ""|exists "www."]; (split; [reflexivity|]);
    rewrite in_lang_opt, in_lang_group, in_lang_lit; auto.
Qed.

(** The first pattern accepts the texts that begin like a media URL. *)
Lemma media_lang url :
  (exists w rest, url = w ++ rest /\ in_lang pattern_media w) <-> media_url url.
Proof.
  unfold pattern_media, media_url. cbn [seq]. split.
  - intros (w & rest & -> & H). lang_inv.
    match goal with H : in_lang (opt (chr "s")) ?s |- _ =>
      apply scheme_lang in H; rename s into s1 end.
    match goal with H : in_lang (opt (Group 1 _)) ?s |- _ =>
      apply host_lang in H; rename s into w1 end.
    match goal with H : in_lang (alts _ _) ?s |- _ =>
      apply segment_lang in H; rename s into seg end.
    match goal with H : _ /\ Str.all id_char ?s = true |- _ =>
      rename s into ident end.
    match goal with H : in_lang (opt (chr "/")) ?s |- _ =>
      rename s into sl end.
    exists ("http" ++ s1), (w1 ++ "instagram.com"), seg, ident, (sl ++ rest).
    split; [|now repeat split].
    rewrite <- !app_assoc. reflexivity.
  - intros (scheme & host & seg & ident & rest & -> & Hs & Hh & Hseg & Hid).
    apply is_scheme_inv in Hs as (s1 & -> & Hs).
    apply is_host_inv in Hh as (w1 & -> & Hh).
    exists ("http" ++ s1 ++ "://" ++ w1 ++ "instagram.com/" ++ seg ++ "/" ++
            ident ++ "" ++ ""), rest.
    split; [rewrite <- !app_assoc; reflexivity|].
    repeat apply in_lang_app.
    + now apply in_lang_lit.
    + now apply scheme_lang.
    + now apply in_lang_lit.
    + exact Hh.
    + now apply in_lang_lit.
    + now apply in_lang_group, segment_lang.
    + now apply in_lang_chr.
    + now apply in_lang_plus_class.
    + apply in_lang_opt. now right.
    + now apply in_lang_eps.
Qed.

(** The second pattern accepts the texts that begin like a profile URL. *)
Lemma profile_lang url :
  (exists w rest, url = w ++ rest /\ in_lang pattern_profile w) <-> profile_url url.
Proof.
  unfold pattern_profile, profile_url. cbn [seq]. split.
  - intros (w & rest & -> & H). lang_inv.
    match goal with H : in_lang (opt (chr "s")) ?s |- _ =>
      apply scheme_lang in H; rename s into s1 end.
    match goal with H : in_lang (opt (Group 1 _)) ?s |- _ =>
      apply host_lang in H; rename s into w1 end.
    match goal with H : _ /\ Str.all name_char ?s = true |- _ =>
      rename s into name end.
    match goal with H : in_lang (opt (chr "/")) ?s |- _ =>
      rename s into sl end.
    match goal with H : in_lang (opt (Cat _ _)) ?s |- _ =>
      rename s into tail end.
    exists ("http" ++ s1), (w1 ++ "instagram.com"), name, (sl ++ tail ++ rest).
    split; [|now repeat split].
    rewrite <- !app_assoc. reflexivity.
  - intros (scheme & host & name & rest & -> & Hs & Hh & Hname).
    apply is_scheme_inv in Hs as (s1 & -> & Hs).
    apply is_host_inv in Hh as (w1 & -> & Hh).
    exists ("http" ++ s1 ++ "://" ++ w1 ++ "instagram.com/" ++ name ++
            "" ++ "" ++ ""), rest.
    split; [rewrite <- !app_assoc; reflexivity|].
    repeat apply in_lang_app.
    + now apply in_lang_lit.
    + now apply scheme_lang.
    + now apply in_lang_lit.
    + exact Hh.
    + now apply in_lang_lit.
    + now apply in_lang_plus_class.
    + apply in_lang_opt. now right.
    + apply in_lang_opt. now right.
    + now apply in_lang_eps.
Qed.

(** *** Cutting the query string and the fragment *)

Lemma split_head_app c w rest :
  Str.all (other_than c) w = true ->
  Str.split_head c (w ++ rest) = w ++ Str.split_head c rest.
Proof.
  induction w as [|a w IH]; [reflexivity|]. rewrite !app_cons. simpl.
  intros [Ha Hw]%andb_true_iff.
  unfold other_than in Ha. apply negb_true_iff in Ha. rewrite Ha.
  now rewrite IH.
Qed.

Lemma split_head_prefix c s : exists rest, s = Str.split_head c s ++ rest.
Proof.
  induction s as [|a s [rest IH]]; [now exists ""|]. simpl.
  destruct (Ascii.eqb a c); [now exists (String a s)|].
  exists rest. now rewrite app_cons, <- IH.
Qed.

Lemma all_impl (p q : ascii -> bool) s :
  (forall a, p a = true -> q a = true) ->
  Str.all p s = true -> Str.all q s = true.
Proof.
  intros Hpq. induction s as [|a s IH]; [reflexivity|]. simpl.
  intros [Ha Hs]%andb_true_iff. now rewrite (Hpq a Ha), IH.
Qed.

Lemma id_char_other c a : is_cut c -> id_char a = true -> other_than c a = true.
Proof.
  intros [->| ->]; destruct a as [[] [] [] [] [] [] [] []];
    vm_compute; intros; solve [reflexivity|discriminate].
Qed.

Lemma name_char_other c a : is_cut c -> name_char a = true -> other_than c a = true.
Proof.
  intros [->| ->]; destruct a as [[] [] [] [] [] [] [] []];
    vm_compute; intros; solve [reflexivity|discriminate].
Qed.

Lemma scheme_other c s : is_cut c -> is_scheme s -> Str.all (other_than c) s = true.
Proof. now intros [->| ->] [->| ->]. Qed.

Lemma host_other c s : is_cut c -> is_host s -> Str.all (other_than c) s = true.
Proof. now intros [->| ->] [->| ->]. Qed.

Lemma segment_other c s : is_cut c -> is_segment s -> Str.all (other_than c) s = true.
Proof.
  unfold is_segment. simpl.
  intros [->| ->] H; repeat (destruct H as [<-|H]; [reflexivity|]); easy.
Qed.

Lemma media_url_cut c url :
  is_cut c -> media_url url <-> media_url (Str.split_head c url).
Proof.
  intros Hc. split.
  - intros (scheme & host & seg & ident & rest & -> & Hs & Hh & Hseg & Hid).
    exists scheme, host, seg, ident, (Str.split_head c rest).
    split; [|tauto].
    rewrite (split_head_app c scheme) by now apply scheme_other.
    rewrite (split_head_app c "://") by now destruct Hc as [->| ->].
    rewrite (split_head_app c host) by now apply host_other.
    rewrite (split_head_app c "/") by now destruct Hc as [->| ->].
    rewrite (split_head_app c seg) by now apply segment_other.
    rewrite (split_head_app c "/") by now destruct Hc as [->| ->].
    rewrite (split_head_app c ident); [reflexivity|].
    eapply all_impl; [|apply Hid]. intros a. now apply id_char_other.
  - destruct (split_head_prefix c url) as [rest' Hurl].
    intros (scheme & host & seg & ident & rest & E & H).
    exists scheme, host, seg, ident, (rest ++ rest'). split; [|exact H].
    rewrite Hurl, E at 1. now rewrite <- !app_assoc.
Qed.

Lemma profile_url_cut c url :
  is_cut c -> profile_url url <-> profile_url (Str.split_head c url).
Proof.
  intros Hc. split.
  - intros (scheme & host & name & rest & -> & Hs & Hh & Hname).
    exists scheme, host, name, (Str.split_head c rest).
    split; [|tauto].
    rewrite (split_head_app c scheme) by now apply scheme_other.
    rewrite (split_head_app c "://") by now destruct Hc as [->| ->].
    rewrite (split_head_app c host) by now apply host_other.
    rewrite (split_head_app c "/") by now destruct Hc as [->| ->].
    rewrite (split_head_app c name); [reflexivity|].
    eapply all_impl; [|apply Hname]. intros a. now apply name_char_other.
  - destruct (split_head_prefix c url) as [rest' Hurl].
    intros (scheme & host & name & rest & E & H).
    exists scheme, host, name, (rest ++ rest'). split; [|exact H].
    rewrite Hurl, E at 1. now rewrite <- !app_assoc.
Qed.

(** Cutting at the first [?] and then at the first [#] neither makes an
    accepted URL unacceptable nor the other way round. *)
Lemma accepted_cut url :
  accepted url <-> accepted (Str.split_head "#" (Str.split_head "?" url)).
Proof.
  unfold accepted.
  rewrite (media_url_cut "?" url), (profile_url_cut "?" url) by now left.
  rewrite (media_url_cut "#" (Str.split_head "?" url)),
          (profile_url_cut "#" (Str.split_head "?" url)) by now right.
  reflexivity.
Qed.

Lemma re_match_media url : is_Some (re_match pattern_media url) <-> media_url url.
Proof. now rewrite re_match_iff, media_lang. Qed.

Lemma re_match_profile url :
  is_Some (re_match pattern_profile url) <-> profile_url url.
Proof. now rewrite re_match_iff, profile_lang. Qed.

Lemma first_match_patterns url :
  (accepted url -> first_match patterns url = Some (Str.strip url)) /\
  (~ accepted url -> first_match patterns url = None).
Proof.
  unfold accepted, patterns, first_match.
  destruct (re_match pattern_media url) as [c1|] eqn:E1.
  { split; [reflexivity|]. intros []. left. apply re_match_media. now rewrite E1. }
  destruct (re_match pattern_profile url) as [c2|] eqn:E2.
  { split; [reflexivity|]. intros []. right. apply re_match_profile. now rewrite E2. }
  split; [|reflexivity].
  intros [H|H]; [apply re_match_media in H as [? H]|apply re_match_profile in H as [? H]];
    congruence.
Qed.

(** C1.  An input that begins like a media URL or like a profile URL is
    answered with its text before the first [?] and the first [#], trimmed;
    every other input is answered with [None]. *)
Theorem sanitize_url_spec (url : string) :
  (accepted url ->
   sanitize_url url =
   Some (Str.strip (Str.split_head "#" (Str.split_head "?" url)))) /\
  (~ accepted url -> sanitize_url url = None).
Proof.
  unfold sanitize_url. rewrite (accepted_cut url). apply first_match_patterns.
Qed.

Lemma sanitize_url_spec_witness :
  accepted "https://www.instagram.com/reel/ABC123/?igshid=1#top" /\
  sanitize_url "https://www.instagram.com/reel/ABC123/?igshid=1#top" =
  Some "https://www.instagram.com/reel/ABC123/".
Proof.
  assert (accepted "https://www.instagram.com/reel/ABC123/?igshid=1#top") as H.
  { left. exists "https", "www.instagram.com", "reel", "ABC123", "/?igshid=1#top".
    split; [reflexivity|]. split; [now right|]. split; [now right|].
    split; [right; left; reflexivity|]. split; [discriminate|reflexivity]. }
  split; [exact H|].
  exact (proj1 (sanitize_url_spec _) H).
Defined.

End SanitizeFacts.

(** ** [get_media_type] *)

Module ClassifyFacts.
Import StrFacts.

Lemma contains_occurs needle hay : Str.contains needle hay = true <-> occurs needle hay.
Proof. apply contains_spec. Qed.

Lemma contains_false needle hay : Str.contains needle hay = false <-> ~ occurs needle hay.
Proof. rewrite <- contains_occurs. now destruct (Str.contains needle hay). Qed.

(** C2.  [get_media_type] tests the markers in the order reel/reels, then
    stories/story, then tv, then p: the first group of which a marker occurs
    in the URL decides, and without any marker the answer is "unknown".  The
    five URLs of the specification are classified as it says.  The test runs
    over the whole URL; on a URL of an Instagram host, which is all that
    [sanitize_url] lets through, that is the test of its path.  (That the
    function has no effect on anything is its type: it maps a string to a
    string and takes part in no [io].) *)
Theorem get_media_type_spec (url : string) :
  let reel := occurs "/reel/" url \/ occurs "/reels/" url in
  let story := occurs "/stories/" url \/ occurs "/story/" url in
  let tv := occurs "/tv/" url in
  let post := occurs "/p/" url in
  (reel -> get_media_type url = "reel") /\
  (~ reel -> story -> get_media_type url = "story") /\
  (~ reel -> ~ story -> tv -> get_media_type url = "igtv") /\
  (~ reel -> ~ story -> ~ tv -> post -> get_media_type url = "post") /\
  (~ reel -> ~ story -> ~ tv -> ~ post -> get_media_type url = "unknown") /\
  get_media_type "https://www.instagram.com/reel/ABC123/" = "reel" /\
  get_media_type "https://www.instagram.com/stories/user/123/" = "story" /\
  get_media_type "https://www.instagram.com/tv/XYZ/" = "igtv" /\
  get_media_type "https://www.instagram.com/p/ABC/" = "post" /\
  get_media_type "https://www.instagram.com/someuser/" = "unknown" /\
  (forall scheme host path,
     is_scheme scheme -> is_host host ->
     get_media_type (scheme ++ "://" ++ host ++ "/" ++ path) =
     get_media_type ("/" ++ path)).
Proof.
  cbv zeta. unfold get_media_type.
  rewrite <- !contains_occurs.
  repeat match goal with |- _ /\ _ => split end.
  11: { intros scheme host path [->| ->] [->| ->]; reflexivity. }
  all: destruct (Str.contains "/reel/" url), (Str.contains "/reels/" url),
    (Str.contains "/stories/" url), (Str.contains "/story/" url),
    (Str.contains "/tv/" url), (Str.contains "/p/" url); simpl;
    try reflexivity; intros; intuition congruence.
Qed.

Lemma get_media_type_spec_witness :
  ~ (occurs "/reel/" "https://www.instagram.com/stories/user/123/" \/
     occurs "/reels/" "https://www.instagram.com/stories/user/123/") /\
  (occurs "/stories/" "https://www.instagram.com/stories/user/123/" \/
   occurs "/story/" "https://www.instagram.com/stories/user/123/") /\
  get_media_type "https://www.instagram.com/stories/user/123/" = "story".
Proof.
  assert (~ (occurs "/reel/" "https://www.instagram.com/stories/user/123/" \/
             occurs "/reels/" "https://www.instagram.com/stories/user/123/")) as H1.
  { intros [H|H]; apply contains_occurs in H; discriminate H. }
  assert (occurs "/stories/" "https://www.instagram.com/stories/user/123/" \/
          occurs "/story/" "https://www.instagram.com/stories/user/123/") as H2.
  { left. now exists "https://www.instagram.com", "user/123/". }
  split; [exact H1|]. split; [exact H2|].
  exact (proj1 (proj2 (get_media_type_spec _)) H1 H2).
Defined.

End ClassifyFacts.

(** ** Removing duplicates *)

Module DedupFacts.

Local Open Scope list_scope.

Lemma fold_dedup_snoc l x st :
  fold_left dedup_step (l ++ [x]) st = dedup_step (fold_left dedup_step l st) x.
Proof. now rewrite fold_left_app. Qed.

Lemma remove_duplicates_nil : remove_duplicates [] = [].
Proof. reflexivity. Qed.

(** The set of seen urls holds the urls of the items met so far. *)
Lemma seen_urls_spec l u :
  u ∈ snd (fold_left dedup_step l ([], ∅)) <-> u ∈ item_url <$> l.
Proof.
  revert u. induction l as [|x l IH] using rev_ind; intros u.
  - simpl. set_solver.
  - rewrite fold_dedup_snoc, fmap_app, elem_of_app. simpl.
    destruct (fold_left dedup_step l ([], ∅)) as [unique seen] eqn:E.
    simpl in IH. unfold dedup_step. case_bool_decide as Hx; simpl.
    + rewrite IH, list_elem_of_singleton. split; [tauto|].
      intros [H| ->]; [exact H|now apply IH].
    + rewrite elem_of_union, elem_of_singleton, IH, list_elem_of_singleton. tauto.
Qed.

(** One more candidate: dropped when its url has been seen, appended to the
    kept items otherwise. *)
Lemma remove_duplicates_snoc l x :
  remove_duplicates (l ++ [x]) =
  if bool_decide (item_url x ∈ item_url <$> l)
  then remove_duplicates l else remove_duplicates l ++ [x].
Proof.
  unfold remove_duplicates. rewrite fold_dedup_snoc.
  pose proof (seen_urls_spec l (item_url x)) as Hseen.
  destruct (fold_left dedup_step l ([], ∅)) as [unique seen]. simpl in *.
  do 2 case_bool_decide; simpl; tauto.
Qed.

Lemma remove_duplicates_urls l u :
  u ∈ item_url <$> remove_duplicates l <-> u ∈ item_url <$> l.
Proof.
  induction l as [|x l IH] using rev_ind; [reflexivity|].
  rewrite remove_duplicates_snoc. case_bool_decide as Hx.
  - rewrite IH, fmap_app, elem_of_app. simpl. rewrite list_elem_of_singleton.
    split; [tauto|]. intros [H| ->]; tauto.
  - rewrite !fmap_app, !elem_of_app, IH. reflexivity.
Qed.

Lemma remove_duplicates_NoDup l : NoDup (item_url <$> remove_duplicates l).
Proof.
  induction l as [|x l IH] using rev_ind; [constructor|].
  rewrite remove_duplicates_snoc. case_bool_decide as Hx; [exact IH|].
  rewrite fmap_app. simpl. apply NoDup_app. split; [exact IH|].
  split; [|apply NoDup_singleton].
  intros u Hu ->%list_elem_of_singleton.
  apply (proj1 (remove_duplicates_urls _ _)) in Hu. contradiction.
Qed.

Lemma remove_duplicates_sublist l : sublist (remove_duplicates l) l.
Proof.
  induction l as [|x l IH] using rev_ind; [constructor|].
  rewrite remove_duplicates_snoc. case_bool_decide.
  - now apply sublist_inserts_r.
  - now apply sublist_app.
Qed.

Lemma remove_duplicates_first l item :
  item ∈ remove_duplicates l -> first_with_url l item.
Proof.
  induction l as [|x l IH] using rev_ind; [now intros ?%elem_of_nil|].
  rewrite remove_duplicates_snoc. case_bool_decide as Hx.
  - intros (l1 & l2 & -> & Hl1)%IH. exists l1, (l2 ++ [x]).
    split; [now rewrite <- app_assoc|exact Hl1].
  - rewrite elem_of_app, list_elem_of_singleton.
    intros [(l1 & l2 & -> & Hl1)%IH| ->].
    + exists l1, (l2 ++ [x]). split; [now rewrite <- app_assoc|exact Hl1].
    + exists l, []. split; [reflexivity|exact Hx].
Qed.

(** An item kept for a url lies in every initial part of the candidates
    that holds an item of that url. *)
Lemma first_with_url_prefix l l1 l2 item x :
  first_with_url l item -> l = l1 ++ l2 ->
  x ∈ l1 -> item_url x = item_url item -> item ∈ l1.
Proof.
  intros (m1 & m2 & -> & Hm1) E Hx Hurl.
  apply app_eq_app in E as [l' [[-> E]|[-> E]]].
  - exfalso. apply Hm1. rewrite fmap_app, elem_of_app. left.
    rewrite <- Hurl. now apply list_elem_of_fmap_2.
  - destruct l' as [|y l'].
    + exfalso. rewrite app_nil_r in Hx. apply Hm1. rewrite <- Hurl.
      now apply list_elem_of_fmap_2.
    + injection E as <- _. apply elem_of_app. right. now left.
Qed.

Lemma remove_duplicates_count l u :
  u ∈ item_url <$> l ->
  length (List.filter (fun i => String.eqb (item_url i) u) (remove_duplicates l)) = 1%nat.
Proof.
  intros Hu. apply (proj2 (remove_duplicates_urls _ _)) in Hu.
  pose proof (remove_duplicates_NoDup l) as Hnd.
  induction (remove_duplicates l) as [|x r IH]; [now apply elem_of_nil in Hu|].
  rewrite fmap_cons in Hu, Hnd. apply NoDup_cons in Hnd as [Hx Hnd].
  apply elem_of_cons in Hu. simpl.
  destruct (String.eqb_spec (item_url x) u) as [E|Hne]; simpl.
  - f_equal. subst u. clear -Hx. induction r as [|y r IH]; [reflexivity|].
    rewrite fmap_cons, not_elem_of_cons in Hx. simpl.
    destruct (String.eqb_spec (item_url y) (item_url x)) as [E|_].
    + destruct Hx as [Hx _]. now rewrite E in Hx.
    + apply IH. tauto.
  - destruct Hu as [Hu|Hu]; [congruence|]. now apply IH.
Qed.

End DedupFacts.

(** ** The extractor *)

Module ExtractFacts.
Import StrFacts DedupFacts ClassifyFacts.

Local Open Scope list_scope.

(** *** Result dicts *)

Lemma error_result_lookup msg :
  error_result msg !! "status" = Some (VStr "error") /\
  error_result msg !! "message" = Some (VStr msg) /\
  error_result msg !! "media" = None /\
  error_result msg !! "metadata" = None /\
  error_result msg !! "count" = None.
Proof. repeat split. Qed.

Lemma success_result_lookup media metadata :
  success_result media metadata !! "status" = Some (VStr "success") /\
  success_result media metadata !! "media" = Some (VMedia media) /\
  success_result media metadata !! "metadata" = Some (VDict metadata) /\
  success_result media metadata !! "count" = Some (VInt (Z.of_nat (length media))) /\
  success_result media metadata !! "message" = None.
Proof. repeat split. Qed.

(** *** [_extract_quality] *)

Lemma first_quality_first qs text before q after :
  qs = before ++ q :: after -> occurs q text ->
  (forall q', q' ∈ before -> ~ occurs q' text) ->
  first_quality qs text = q.
Proof.
  intros -> Hq. induction before as [|b before IH]; intros Hb; simpl.
  - apply contains_occurs in Hq. now rewrite Hq.
  - assert (Str.contains b text = false) as ->.
    { apply contains_false, Hb. now left. }
    apply IH. intros q' Hq'. apply Hb. now right.
Qed.

Lemma first_quality_none qs text :
  (forall q, q ∈ qs -> ~ occurs q text) -> first_quality qs text = "standard".
Proof.
  induction qs as [|b qs IH]; intros Hb; simpl; [reflexivity|].
  assert (Str.contains b text = false) as ->.
  { apply contains_false, Hb. now left. }
  apply IH. intros q' Hq'. apply Hb. now right.
Qed.

Lemma first_quality_range qs text :
  first_quality qs text ∈ qs \/ first_quality qs text = "standard".
Proof.
  induction qs as [|b qs IH]; simpl; [now right|].
  destruct (Str.contains b text); [left; now left|].
  destruct IH as [IH|IH]; [left; now right|now right].
Qed.

Lemma extract_quality_not_unknown text : _extract_quality text <> "unknown".
Proof.
  unfold _extract_quality.
  destruct (first_quality_range qualities text) as [H|H]; [|now rewrite H].
  intros E. rewrite E in H. unfold qualities in H.
  repeat (apply elem_of_cons in H as [H|H]; [discriminate|]).
  now apply elem_of_nil in H.
Qed.

Section Candidates.

Variable unescape : string -> string.

Lemma fold_left_steps {X : Type} (step : list media_item -> X -> list media_item) :
  (forall acc x, step acc x = acc ++ step [] x) ->
  forall l acc, fold_left step l acc = acc ++ flat_map (step []) l.
Proof.
  intros Hstep. induction l as [|x l IH]; intros acc; simpl.
  - now rewrite List.app_nil_r.
  - now rewrite IH, (Hstep acc x), <- List.app_assoc.
Qed.

Lemma video_step_app acc a :
  video_step unescape acc a = acc ++ video_step unescape [] a.
Proof. unfold video_step. destruct (_ && _); [reflexivity|now rewrite List.app_nil_r]. Qed.

Lemma image_step_app acc a :
  image_step unescape acc a = acc ++ image_step unescape [] a.
Proof. unfold image_step. destruct (_ && _); [reflexivity|now rewrite List.app_nil_r]. Qed.

Lemma source_step_app acc src :
  source_step unescape acc src = acc ++ source_step unescape [] src.
Proof. unfold source_step. destruct (_ && _); [reflexivity|now rewrite List.app_nil_r]. Qed.

(** The candidates: the video links' items, then the image links' items, then
    the items of the [<source>] elements. *)
Lemma collect_eq p :
  collect unescape p =
  flat_map (video_step unescape []) (select_video_links p) ++
  flat_map (image_step unescape []) (select_image_links p) ++
  flat_map (source_step unescape []) (p_sources p).
Proof.
  unfold collect.
  rewrite (fold_left_steps _ source_step_app), (fold_left_steps _ image_step_app),
    (fold_left_steps _ video_step_app).
  now rewrite <- List.app_assoc.
Qed.

Lemma elem_of_flat_map {X Y : Type} (f : X -> list Y) l y :
  y ∈ flat_map f l <-> exists x, x ∈ l /\ y ∈ f x.
Proof.
  rewrite list_elem_of_In, in_flat_map.
  split; intros (x & H1 & H2); exists x; now rewrite ?list_elem_of_In in *.
Qed.

Lemma elem_of_filter {X : Type} (f : X -> bool) l x :
  x ∈ List.filter f l <-> x ∈ l /\ f x = true.
Proof. now rewrite !list_elem_of_In, filter_In. Qed.

Lemma video_step_elem item a :
  item ∈ video_step unescape [] a <->
  Str.nonempty (unescape (default "" (a_href a))) = true /\
  (Str.contains ".mp4" (unescape (default "" (a_href a))) ||
   Str.contains "video" (Str.lower (a_text a))) = true /\
  item = {| item_url := unescape (default "" (a_href a));
            item_type := "video";
            item_quality := _extract_quality (Str.lower (a_text a));
            item_size := _extract_size (Str.lower (a_text a)) |}.
Proof.
  unfold video_step. destruct (Str.nonempty _); cbn [andb app].
  - destruct (_ || _); cbn [andb app].
    + rewrite list_elem_of_singleton. tauto.
    + rewrite elem_of_nil. intuition discriminate.
  - rewrite elem_of_nil. intuition discriminate.
Qed.

Lemma image_step_elem item a :
  item ∈ image_step unescape [] a <->
  Str.nonempty (unescape (default "" (a_href a))) = true /\
  any_ext image_exts (unescape (default "" (a_href a))) = true /\
  item = {| item_url := unescape (default "" (a_href a));
            item_type := "image";
            item_quality := _extract_quality (Str.lower (a_text a));
            item_size := _extract_size (Str.lower (a_text a)) |}.
Proof.
  unfold image_step. destruct (Str.nonempty _); cbn [andb app].
  - destruct (any_ext _ _); cbn [andb app].
    + rewrite list_elem_of_singleton. tauto.
    + rewrite elem_of_nil. intuition discriminate.
  - rewrite elem_of_nil. intuition discriminate.
Qed.

Lemma source_step_elem item src :
  item ∈ source_step unescape [] src <->
  Str.nonempty (unescape (default "" src)) = true /\
  Str.contains ".mp4" (unescape (default "" src)) = true /\
  item = {| item_url := unescape (default "" src);
            item_type := "video";
            item_quality := "unknown";
            item_size := "unknown" |}.
Proof.
  unfold source_step. destruct (Str.nonempty _); cbn [andb app].
  - destruct (Str.contains _ _); cbn [andb app].
    + rewrite list_elem_of_singleton. tauto.
    + rewrite elem_of_nil. intuition discriminate.
  - rewrite elem_of_nil. intuition discriminate.
Qed.

Lemma collect_elem p item :
  item ∈ collect unescape p <->
  (exists a, a ∈ select_video_links p /\ item ∈ video_step unescape [] a) \/
  (exists a, a ∈ select_image_links p /\ item ∈ image_step unescape [] a) \/
  (exists src, src ∈ p_sources p /\ item ∈ source_step unescape [] src).
Proof. now rewrite collect_eq, !elem_of_app, !elem_of_flat_map. Qed.

Lemma extract_media p media :
  extract unescape p !! "media" = Some (VMedia media) ->
  media = remove_duplicates (collect unescape p) /\ media <> [] /\
  extract unescape p = success_result media (page_metadata p).
Proof.
  unfold extract. destruct (remove_duplicates (collect unescape p)) as [|x r].
  - intros H. discriminate H.
  - intros H. injection H as <-. now repeat split.
Qed.

Lemma extract_nonempty p :
  remove_duplicates (collect unescape p) <> [] ->
  extract unescape p =
  success_result (remove_duplicates (collect unescape p)) (page_metadata p).
Proof. unfold extract. now destruct (remove_duplicates (collect unescape p)). Qed.

(** C3, as amended.  An item taken from a link carries the quality found by
    scanning the link's lower-cased text; an item taken from a [<source>]
    element carries "unknown".  The scan answers the first token of
    [qualities] that occurs in the text and "standard" when none does; on
    "Download HD 1080p" it answers "hd". *)
Theorem quality_of_candidates :
  (forall p item,
     item ∈ collect unescape p ->
     (exists a, a ∈ p_anchors p /\
                item_url item = unescape (default "" (a_href a)) /\
                item_quality item = _extract_quality (Str.lower (a_text a))) \/
     (exists src, src ∈ p_sources p /\
                  item_url item = unescape (default "" src) /\
                  item_quality item = "unknown")) /\
  (forall text before q after,
     qualities = before ++ q :: after -> occurs q text ->
     (forall q', q' ∈ before -> ~ occurs q' text) ->
     _extract_quality text = q) /\
  (forall text,
     (forall q, q ∈ qualities -> ~ occurs q text) ->
     _extract_quality text = "standard") /\
  _extract_quality (Str.lower "Download HD 1080p") = "hd".
Proof.
  split; [|split; [|split]].
  - intros p item [H|[H|H]]%collect_elem.
    + destruct H as (a & [Ha _]%elem_of_filter & (_ & _ & ->)%video_step_elem).
      left. now exists a.
    + destruct H as (a & [Ha _]%elem_of_filter & (_ & _ & ->)%image_step_elem).
      left. now exists a.
    + destruct H as (src & Hsrc & (_ & _ & ->)%source_step_elem).
      right. now exists src.
  - intros text before q after. apply first_quality_first.
  - intros text. apply first_quality_none.
  - reflexivity.
Qed.

(** C5.  The media of a result hold no url twice; they are the candidates in
    their order with later items of a seen url left out, so each stands where
    its url is first seen, and every candidate url is kept exactly once. *)
Theorem media_urls_unique p media :
  extract unescape p !! "media" = Some (VMedia media) ->
  NoDup (item_url <$> media) /\
  sublist media (collect unescape p) /\
  (forall item, item ∈ media -> first_with_url (collect unescape p) item) /\
  (forall u, u ∈ item_url <$> collect unescape p ->
     length (List.filter (fun i => String.eqb (item_url i) u) media) = 1%nat).
Proof.
  intros (-> & _ & _)%extract_media. split; [apply remove_duplicates_NoDup|].
  split; [apply remove_duplicates_sublist|].
  split; [apply remove_duplicates_first|apply remove_duplicates_count].
Qed.

(** C10.  A link with a download-button class whose href holds an image
    extension and which also meets the video condition is reported once, as a
    video: the media of the result hold an item with its url, and every item
    with that url has type "video". *)
Theorem video_wins_over_image p a :
  a ∈ p_anchors p ->
  has_class "btn-download" a || has_class "download-button" a = true ->
  any_ext image_exts (unescape (default "" (a_href a))) = true ->
  Str.contains ".mp4" (unescape (default "" (a_href a))) ||
  Str.contains "video" (Str.lower (a_text a)) = true ->
  exists media,
    extract unescape p !! "media" = Some (VMedia media) /\
    (exists item, item ∈ media /\
       item_url item = unescape (default "" (a_href a)) /\
       item_type item = "video") /\
    (forall item, item ∈ media ->
       item_url item = unescape (default "" (a_href a)) ->
       item_type item = "video" /\ item_type item <> "image").
Proof.
  intros Ha Hcls Himg Hvid.
  set (href := unescape (default "" (a_href a))) in *.
  set (v := {| item_url := href; item_type := "video";
               item_quality := _extract_quality (Str.lower (a_text a));
               item_size := _extract_size (Str.lower (a_text a)) |}).
  assert (Str.nonempty href = true) as Hne.
  { destruct href; [discriminate Himg|reflexivity]. }
  assert (v ∈ flat_map (video_step unescape []) (select_video_links p)) as Hv.
  { apply elem_of_flat_map. exists a. split.
    - apply elem_of_filter. split; [exact Ha|]. now rewrite Hcls.
    - apply video_step_elem. fold href. now repeat split. }
  assert (v ∈ collect unescape p) as Hvc.
  { rewrite collect_eq, elem_of_app. now left. }
  assert (forall item, item ∈ remove_duplicates (collect unescape p) ->
            item_url item = href -> item_type item = "video") as Hall.
  { intros item Hitem Hurl. apply remove_duplicates_first in Hitem.
    eapply first_with_url_prefix in Hitem;
      [|apply collect_eq|exact Hv|now rewrite Hurl].
    apply elem_of_flat_map in Hitem as (a' & _ & (_ & _ & ->)%video_step_elem).
    reflexivity. }
  assert (href ∈ item_url <$> remove_duplicates (collect unescape p)) as Hin.
  { apply remove_duplicates_urls.
    change href with (item_url v). now apply list_elem_of_fmap_2. }
  apply list_elem_of_fmap in Hin as (item & Hurl & Hitem).
  exists (remove_duplicates (collect unescape p)). split; [|split].
  - rewrite extract_nonempty; [reflexivity|]. intros E. rewrite E in Hitem.
    now apply elem_of_nil in Hitem.
  - exists item. split; [exact Hitem|]. split; [now symmetry|].
    apply Hall; [exact Hitem|now symmetry].
  - intros item' H1 H2. rewrite (Hall item' H1 H2). split; [reflexivity|discriminate].
Qed.

End Candidates.

(** C3 as stated fails: a page whose only media is a [<source>] element
    yields a candidate whose quality no scan of any text produces. *)
Lemma quality_of_source_counterexample :
  let p := {| p_title := None; p_anchors := [];
              p_sources := [Some "https://x/v.mp4"] |} in
  let item := {| item_url := "https://x/v.mp4"; item_type := "video";
                 item_quality := "unknown"; item_size := "unknown" |} in
  collect unescape_plain p = [item] /\
  extract unescape_plain p !! "media" = Some (VMedia [item]) /\
  ~ (forall i, i ∈ collect unescape_plain p ->
       exists text, item_quality i = _extract_quality (Str.lower text)).
Proof.
  cbv zeta. split; [reflexivity|]. split; [reflexivity|].
  intros H. destruct (H _ (list_elem_of_here _ _)) as [text Ht].
  symmetry in Ht. now apply extract_quality_not_unknown in Ht.
Qed.

Lemma quality_of_candidates_witness :
  let p := {| p_title := None;
              p_anchors := [{| a_class := ["btn-download"];
                               a_href := Some "https://x/v.mp4";
                               a_text := "Download HD 1080p" |}];
              p_sources := [] |} in
  let item := {| item_url := "https://x/v.mp4"; item_type := "video";
                 item_quality := "hd"; item_size := "unknown" |} in
  item ∈ collect unescape_plain p /\
  ((exists a, a ∈ p_anchors p /\
              item_url item = unescape_plain (default "" (a_href a)) /\
              item_quality item = _extract_quality (Str.lower (a_text a))) \/
   (exists src, src ∈ p_sources p /\
                item_url item = unescape_plain (default "" src) /\
                item_quality item = "unknown")).
Proof.
  cbv zeta.
  assert ({| item_url := "https://x/v.mp4"; item_type := "video";
             item_quality := "hd"; item_size := "unknown" |}
          ∈ collect unescape_plain
              {| p_title := None;
                 p_anchors := [{| a_class := ["btn-download"];
                                  a_href := Some "https://x/v.mp4";
                                  a_text := "Download HD 1080p" |}];
                 p_sources := [] |}) as H by apply list_elem_of_here.
  split; [exact H|].
  exact (proj1 (quality_of_candidates unescape_plain) _ _ H).
Defined.

Lemma media_urls_unique_witness :
  let a := {| a_class := ["btn-download"]; a_href := Some "https://x/v.mp4";
              a_text := "HD 720p 10MB" |} in
  let p := {| p_title := None; p_anchors := [a; a]; p_sources := [] |} in
  let item := {| item_url := "https://x/v.mp4"; item_type := "video";
                 item_quality := "hd"; item_size := "10 MB" |} in
  extract unescape_plain p !! "media" = Some (VMedia [item]) /\
  NoDup (item_url <$> [item]) /\
  sublist [item] (collect unescape_plain p) /\
  (forall i, i ∈ [item] -> first_with_url (collect unescape_plain p) i) /\
  (forall u, u ∈ item_url <$> collect unescape_plain p ->
     length (List.filter (fun i => String.eqb (item_url i) u) [item]) = 1%nat).
Proof.
  cbv zeta. split; [reflexivity|].
  apply (media_urls_unique unescape_plain). reflexivity.
Defined.

Lemma video_wins_over_image_witness :
  let a := {| a_class := ["download-button"]; a_href := Some "https://x/cover.jpg";
              a_text := "Download Video" |} in
  let p := {| p_title := None; p_anchors := [a]; p_sources := [] |} in
  exists media,
    extract unescape_plain p !! "media" = Some (VMedia media) /\
    (exists item, item ∈ media /\
       item_url item = "https://x/cover.jpg" /\ item_type item = "video") /\
    (forall item, item ∈ media ->
       item_url item = "https://x/cover.jpg" ->
       item_type item = "video" /\ item_type item <> "image").
Proof.
  cbv zeta.
  apply (video_wins_over_image unescape_plain
           {| p_title := None;
              p_anchors := [{| a_class := ["download-button"];
                               a_href := Some "https://x/cover.jpg";
                               a_text := "Download Video" |}];
              p_sources := [] |}
           {| a_class := ["download-button"]; a_href := Some "https://x/cover.jpg";
              a_text := "Download Video" |});
    [apply list_elem_of_here|reflexivity|reflexivity|reflexivity].
Defined.

End ExtractFacts.

(** ** Requests: [download_from_snapdownloader], [get_all] and [/proxy] *)

Module RequestFacts.
Import StrFacts DedupFacts ClassifyFacts ExtractFacts.

Local Open Scope list_scope.

Lemma error_result_inj m1 m2 : error_result m1 = error_result m2 -> m1 = m2.
Proof.
  intros H. apply (f_equal (fun r => r !! "message")) in H.
  now injection H.
Qed.

Lemma page_metadata_title p : page_metadata p !! "title" = Str.strip <$> p_title p.
Proof. unfold page_metadata. now destruct (p_title p). Qed.

Section Network.

Variable unescape : string -> string.
Variable quote : string -> string.
Variable network : list string -> string -> outcome.

Abbreviation download := (download_from_snapdownloader unescape quote network).

Lemma download_log url downloader_url log :
  snd (download url downloader_url log) =
  log ++ [(downloader_url ++ quote url)%string].
Proof.
  unfold download_from_snapdownloader, bind, http_get, ret.
  destruct (network log _) as [[] msg|r]; [reflexivity..|].
  now destruct (negb _).
Qed.

(** C7.  A result of [download_from_snapdownloader] is either the success
    dict, with the non-empty duplicate-free media in order, the metadata (the
    trimmed title when the page has one) and their count, or the error dict,
    with a message and without media, metadata or count. *)
Theorem download_result_shape url downloader_url log :
  let target := (downloader_url ++ quote url)%string in
  let r := fst (download url downloader_url log) in
  (exists resp media,
     network log target = Returned resp /\ status_code resp = 200%Z /\
     media = remove_duplicates (collect unescape (text resp)) /\ media <> [] /\
     r = success_result media (page_metadata (text resp)) /\
     r !! "status" = Some (VStr "success") /\
     r !! "media" = Some (VMedia media) /\
     r !! "metadata" = Some (VDict (page_metadata (text resp))) /\
     page_metadata (text resp) !! "title" = Str.strip <$> p_title (text resp) /\
     r !! "count" = Some (VInt (Z.of_nat (length media))) /\
     r !! "message" = None) \/
  (exists msg,
     r = error_result msg /\
     r !! "status" = Some (VStr "error") /\
     r !! "message" = Some (VStr msg) /\
     r !! "media" = None /\ r !! "metadata" = None /\ r !! "count" = None /\
     match network log target with
     | Raised true _ => msg = "Request timeout"
     | Raised false e => msg = e
     | Returned resp =>
         if (status_code resp =? 200)%Z
         then remove_duplicates (collect unescape (text resp)) = [] /\
              msg = "No media found"
         else msg = ("Failed to load page: " ++ pretty (status_code resp))%string
     end).
Proof.
  cbv zeta. unfold download_from_snapdownloader, bind, http_get, ret.
  destruct (network log _) as [[] e|resp]; simpl.
  - right. eexists. split; [reflexivity|]. now repeat split.
  - right. eexists. split; [reflexivity|]. now repeat split.
  - destruct (status_code resp =? 200)%Z eqn:Hst; simpl.
    + unfold extract.
      destruct (remove_duplicates (collect unescape (text resp))) as [|x m] eqn:Hm.
      * right. eexists. split; [reflexivity|]. now repeat split.
      * left. exists resp, (x :: m). apply Z.eqb_eq in Hst.
        split; [reflexivity|]. split; [exact Hst|]. split; [now rewrite Hm|].
        split; [discriminate|]. split; [reflexivity|].
        split; [reflexivity|]. split; [reflexivity|]. split; [reflexivity|].
        split; [apply page_metadata_title|]. now split.
    + right. eexists. split; [reflexivity|]. now repeat split.
Qed.

Lemma download_pair url downloader_url log :
  download url downloader_url log =
  (fst (download url downloader_url log),
   log ++ [(downloader_url ++ quote url)%string]).
Proof. rewrite <- download_log. apply surjective_pairing. Qed.

(** Every result carries the key ['status']. *)
Lemma download_has_status url downloader_url log :
  exists st, fst (download url downloader_url log) !! "status" = Some (VStr st).
Proof.
  unfold download_from_snapdownloader, bind, http_get, ret.
  destruct (network log _) as [[] e|resp]; simpl; [now eexists..|].
  destruct (negb _); simpl; [now eexists|].
  unfold extract. destruct (remove_duplicates _); now eexists.
Qed.

Lemma get_media_type_range url :
  get_media_type url ∈ ["reel"; "story"; "igtv"; "post"; "unknown"].
Proof.
  unfold get_media_type.
  repeat (destruct (_ || _) || destruct (Str.contains _ _));
    repeat (first [apply list_elem_of_here|apply list_elem_of_further]).
Qed.

Lemma story_target_differs url :
  (Config.STORY_DOWNLOADER ++ quote url)%string ∉
    [(Config.REEL_DOWNLOADER ++ quote url)%string;
     (Config.POST_DOWNLOADER ++ quote url)%string;
     (Config.IGTV_DOWNLOADER ++ quote url)%string].
Proof.
  rewrite !not_elem_of_cons.
  repeat split; [| | |apply not_elem_of_nil];
    intros H; apply (f_equal (Str.take 50)) in H; vm_compute in H; discriminate H.
Qed.

(** C6.  A URL with a known media type goes to the endpoint of exactly that
    type.  A URL of unknown type is tried on the reel endpoint, then on the
    post endpoint, then on the igtv endpoint, each only after the one before
    has failed; the first successful result is returned, and after three
    failures the error "Unable to download media".  The story endpoint is not
    among the requests. *)
Theorem get_all_dispatch url log :
  let media_type := get_media_type url in
  let t1 := (Config.REEL_DOWNLOADER ++ quote url)%string in
  let t2 := (Config.POST_DOWNLOADER ++ quote url)%string in
  let t3 := (Config.IGTV_DOWNLOADER ++ quote url)%string in
  let r1 := fst (download url Config.REEL_DOWNLOADER log) in
  let r2 := fst (download url Config.POST_DOWNLOADER (log ++ [t1])) in
  let r3 := fst (download url Config.IGTV_DOWNLOADER (log ++ [t1; t2])) in
  (media_type <> "unknown" ->
   get_all unescape quote network url log =
   download url (endpoint_of media_type) log) /\
  (media_type = "unknown" ->
   get_all unescape quote network url log =
   if status_is "success" r1 then (r1, log ++ [t1])
   else if status_is "success" r2 then (r2, log ++ [t1; t2])
   else if status_is "success" r3 then (r3, log ++ [t1; t2; t3])
   else (error_result "Unable to download media", log ++ [t1; t2; t3])) /\
  (Config.STORY_DOWNLOADER ++ quote url)%string ∉ [t1; t2; t3].
Proof.
  cbv zeta. split; [|split; [|apply story_target_differs]].
  - intros Hne. unfold get_all, endpoint_of.
    pose proof (get_media_type_range url) as H.
    repeat (apply elem_of_cons in H as [E|H];
            [first [contradiction|now rewrite E]|]).
    now apply elem_of_nil in H.
  - intros Hu. unfold get_all. rewrite Hu. simpl.
    unfold bind, ret, get_reel, get_post, get_igtv.
    rewrite (download_pair url Config.REEL_DOWNLOADER log).
    destruct (status_is "success" _); [reflexivity|].
    rewrite (download_pair url Config.POST_DOWNLOADER).
    rewrite <- List.app_assoc. simpl.
    destruct (status_is "success" _); [reflexivity|].
    rewrite (download_pair url Config.IGTV_DOWNLOADER).
    rewrite <- List.app_assoc. simpl.
    now destruct (status_is "success" _).
Qed.

(** C9, as amended.  A [/proxy] request whose url parameter is not empty and,
    lower-cased, holds none of the four extensions is answered with status 400
    and the message "Invalid media URL", and no request is sent; so is the
    request for [https://x/file.exe]. *)
Theorem proxy_rejects_other_urls :
  (forall media_url log,
     media_url <> "" ->
     (forall ext, ext ∈ proxy_exts -> ~ occurs ext (Str.lower media_url)) ->
     proxy_download network (Some media_url) log =
     (Json (error_result "Invalid media URL") 400, log)) /\
  (forall log,
     proxy_download network (Some "https://x/file.exe") log =
     (Json (error_result "Invalid media URL") 400, log)).
Proof.
  split; [|reflexivity].
  intros media_url log Hne Hext. unfold proxy_download.
  destruct media_url as [|a m]; [contradiction|].
  assert (any_ext proxy_exts (Str.lower (String a m)) = false) as ->; [|reflexivity].
  unfold any_ext, proxy_exts. cbn [existsb].
  rewrite !orb_false_iff.
  repeat split; try apply contains_false, Hext;
    repeat (first [apply list_elem_of_here|apply list_elem_of_further]).
Qed.

End Network.

(** C9 as stated fails for the empty url parameter: it holds none of the
    extensions, and the answer carries another message. *)
Lemma proxy_empty_url_counterexample :
  (forall ext, ext ∈ proxy_exts -> ~ occurs ext (Str.lower "")) /\
  proxy_download network_down (Some "") [] =
  (Json (error_result "Please provide 'url' parameter") 400, []) /\
  proxy_download network_down (Some "") [] <>
  (Json (error_result "Invalid media URL") 400, []).
Proof.
  split; [|split; [reflexivity|]].
  - intros ext Hext. apply contains_false.
    unfold proxy_exts in Hext.
    repeat (apply elem_of_cons in Hext as [->|Hext]; [reflexivity|]).
    now apply elem_of_nil in Hext.
  - intros H.
    apply (f_equal (fun x => match fst x with
                             | Json body _ => body !! "message"
                             | _ => None
                             end)) in H.
    discriminate H.
Qed.

Lemma proxy_rejects_other_urls_witness :
  "https://x/setup.EXE" <> "" /\
  (forall ext, ext ∈ proxy_exts -> ~ occurs ext (Str.lower "https://x/setup.EXE")) /\
  proxy_download network_down (Some "https://x/setup.EXE") [] =
  (Json (error_result "Invalid media URL") 400, []).
Proof.
  assert (forall ext, ext ∈ proxy_exts ->
                      ~ occurs ext (Str.lower "https://x/setup.EXE")) as Hext.
  { intros ext Hext. apply contains_false. unfold proxy_exts in Hext.
    repeat (apply elem_of_cons in Hext as [->|Hext]; [reflexivity|]).
    now apply elem_of_nil in Hext. }
  split; [discriminate|]. split; [exact Hext|].
  apply (proj1 (proxy_rejects_other_urls network_down)); [discriminate|exact Hext].
Defined.

Lemma get_all_dispatch_witness :
  get_media_type "https://www.instagram.com/someuser/" = "unknown" /\
  get_all unescape_plain quote_sample network_down
    "https://www.instagram.com/someuser/" [] =
  (error_result "Unable to download media",
   [(Config.REEL_DOWNLOADER ++ "https://www.instagram.com/someuser/")%string;
    (Config.POST_DOWNLOADER ++ "https://www.instagram.com/someuser/")%string;
    (Config.IGTV_DOWNLOADER ++ "https://www.instagram.com/someuser/")%string]).
Proof.
  split; [reflexivity|].
  exact (proj1 (proj2 (get_all_dispatch unescape_plain quote_sample network_down
                         "https://www.instagram.com/someuser/" []))
           eq_refl).
Defined.

End RequestFacts.

(** ** The rate limiter *)

Module RateLimitFacts.

Local Open Scope list_scope.

Lemma check_rate_limit_other ip ip' t rc :
  ip <> ip' -> snd (check_rate_limit ip' t rc) !! ip = rc !! ip.
Proof.
  intros Hne. unfold check_rate_limit.
  destruct (rc !! ip') as [e|]; simpl.
  - destruct (Qlt_le_dec _ _); simpl; [now rewrite lookup_insert_ne|].
    destruct (100 <=? count e)%Z; simpl; [reflexivity|now rewrite lookup_insert_ne].
  - now rewrite lookup_insert_ne.
Qed.

(** A request that does not count against [ip] leaves its counter alone. *)
Lemma before_request_other ip req t rc :
  counts_for ip (req, t) = false ->
  snd (before_request req t rc) !! ip = rc !! ip.
Proof.
  unfold counts_for, before_request. simpl.
  destruct (String.eqb_spec (path req) "/health") as [_|_]; simpl; [reflexivity|].
  destruct (String.eqb_spec (remote_addr req) ip) as [_|Hne]; [discriminate|].
  intros _. pose proof (check_rate_limit_other ip (remote_addr req) t rc) as H.
  destruct (check_rate_limit (remote_addr req) t rc) as [ok rc']. simpl in H.
  destruct ok; simpl; apply H; congruence.
Qed.

(** The first request of a window is let through and starts the counter. *)
Lemma before_request_start ip req t0 rc :
  counts_for ip (req, t0) = true -> starts_window ip t0 rc ->
  fst (before_request req t0 rc) = None /\
  in_window ip t0 1 (snd (before_request req t0 rc)).
Proof.
  unfold counts_for, before_request, starts_window, in_window. simpl.
  destruct (String.eqb_spec (path req) "/health") as [_|_]; [discriminate|].
  destruct (String.eqb_spec (remote_addr req) ip) as [->|_]; [|discriminate].
  intros _ Hw. unfold check_rate_limit.
  destruct (rc !! ip) as [e|]; simpl.
  - destruct (Qlt_le_dec _ _) as [_|Hle]; simpl.
    + split; [reflexivity|apply lookup_insert_eq].
    + now apply Qle_not_lt in Hle.
  - split; [reflexivity|apply lookup_insert_eq].
Qed.

(** Inside the window the request is let through while fewer than 100 have
    been counted, and answered with 429 from then on. *)
Lemma before_request_counted ip req t t0 n rc :
  counts_for ip (req, t) = true -> (t - t0 <= 3600)%Q ->
  (1 <= n)%nat -> in_window ip t0 n rc ->
  fst (before_request req t rc) =
    (if decide (n + 1 <= 100)%nat then None else rate_limited) /\
  in_window ip t0 (n + 1) (snd (before_request req t rc)).
Proof.
  unfold counts_for, before_request, in_window. simpl.
  destruct (String.eqb_spec (path req) "/health") as [_|_]; [discriminate|].
  destruct (String.eqb_spec (remote_addr req) ip) as [->|_]; [|discriminate].
  intros _ Hle Hn Hw. unfold check_rate_limit. rewrite Hw. simpl.
  destruct (Qlt_le_dec _ _) as [Hlt|_]; [now apply Qle_not_lt in Hle|].
  destruct (100 <=? Z.of_nat (Nat.min n 100))%Z eqn:Hc; simpl.
  - apply Z.leb_le in Hc. case_decide; [lia|]. split; [reflexivity|].
    rewrite Hw. do 3 f_equal. lia.
  - apply Z.leb_gt in Hc. case_decide; [|lia]. split; [reflexivity|].
    rewrite lookup_insert_eq. do 2 f_equal. lia.
Qed.

Lemma serve_cons req t reqs rc :
  serve ((req, t) :: reqs) rc =
  (fst (before_request req t rc) :: fst (serve reqs (snd (before_request req t rc))),
   snd (serve reqs (snd (before_request req t rc)))).
Proof.
  simpl. destruct (before_request req t rc) as [r rc']. simpl.
  now destruct (serve reqs rc').
Qed.

Lemma counted_cons ip x l :
  counted ip (x :: l) = ((if counts_for ip x then 1 else 0) + counted ip l)%nat.
Proof. unfold counted. simpl. now destruct (counts_for ip x). Qed.

Lemma serve_in_window ip t0 reqs :
  forall n rc,
  (1 <= n)%nat -> in_window ip t0 n rc ->
  (forall req t, (req, t) ∈ reqs -> counts_for ip (req, t) = true ->
                 (t - t0 <= 3600)%Q) ->
  forall i req t,
  reqs !! i = Some (req, t) -> counts_for ip (req, t) = true ->
  fst (serve reqs rc) !! i =
  Some (if decide (n + counted ip (take (S i) reqs) <= 100)%nat
        then None else rate_limited).
Proof.
  induction reqs as [|[req' t'] reqs IH]; intros n rc Hn Hw Hin i req t Hi Hc.
  - discriminate Hi.
  - rewrite serve_cons, firstn_cons, counted_cons. cbn [fst].
    assert (forall r1 t1, (r1, t1) ∈ reqs -> counts_for ip (r1, t1) = true ->
                          (t1 - t0 <= 3600)%Q) as Hin'.
    { intros r1 t1 ? ?. apply (Hin r1 t1); [now right|assumption]. }
    destruct (counts_for ip (req', t')) eqn:Hc'.
    + destruct (before_request_counted ip req' t' t0 n rc Hc') as [Hr Hw'];
        [apply (Hin req' t'); [left|exact Hc']|exact Hn|exact Hw|].
      destruct i as [|i].
      * cbn [take lookup list_lookup]. rewrite Hr. unfold counted. simpl.
        reflexivity.
      * rewrite lookup_cons_ne_0 by lia. simpl pred.
        rewrite (IH (n + 1)%nat _ ltac:(lia) Hw' Hin' i req t Hi Hc).
        now rewrite Nat.add_assoc.
    + destruct i as [|i].
      * injection Hi as -> ->. congruence.
      * rewrite lookup_cons_ne_0 by lia. simpl pred.
        assert (in_window ip t0 n (snd (before_request req' t' rc))) as Hw'.
        { unfold in_window. now rewrite before_request_other. }
        now rewrite (IH n _ Hn Hw' Hin' i req t Hi Hc).
Qed.

(** C8.  Requests to [/health] pass the hook without touching the counters.
    When a request of an address starts a window, then among it and the
    requests that follow, as long as those of the address come no later than
    3600 seconds after it, the first 100 that count against the address are
    let through and every later one is answered with status 429 and the
    error body.  A request that comes more than 3600 seconds after the start
    of the address's window is let through and starts the next window. *)
Theorem rate_limit_window :
  (forall req t rc, path req = "/health" -> before_request req t rc = (None, rc)) /\
  (forall ip rc req0 t0 reqs,
     counts_for ip (req0, t0) = true -> starts_window ip t0 rc ->
     (forall req t, (req, t) ∈ reqs -> counts_for ip (req, t) = true ->
                    (t - t0 <= 3600)%Q) ->
     forall i req t,
     ((req0, t0) :: reqs) !! i = Some (req, t) -> counts_for ip (req, t) = true ->
     fst (serve ((req0, t0) :: reqs) rc) !! i =
     Some (if decide (counted ip (take (S i) ((req0, t0) :: reqs)) <= 100)%nat
           then None else rate_limited)) /\
  (forall ip rc req t e,
     counts_for ip (req, t) = true ->
     rc !! ip = Some e -> (3600 < t - timestamp e)%Q ->
     fst (before_request req t rc) = None /\
     snd (before_request req t rc) !! ip = Some {| count := 1; timestamp := t |}).
Proof.
  split; [|split].
  - intros req t rc Hp. unfold before_request. now rewrite Hp.
  - intros ip rc req0 t0 reqs Hc0 Hstart Hin i req t Hi Hc.
    rewrite serve_cons. cbn [fst].
    destruct (before_request_start ip req0 t0 rc Hc0 Hstart) as [Hr Hw].
    rewrite firstn_cons, counted_cons, Hc0.
    destruct i as [|i].
    + cbn [take lookup list_lookup]. now rewrite Hr.
    + rewrite lookup_cons_ne_0 by lia. simpl pred.
      now rewrite (serve_in_window ip t0 reqs 1 _ ltac:(lia) Hw Hin i req t Hi Hc).
  - intros ip rc req t e Hc He Hlt.
    apply (before_request_start ip req t rc Hc).
    unfold starts_window. now rewrite He.
Qed.

Lemma rate_limit_window_witness :
  let req := {| path := "/download"; remote_addr := "10.0.0.1" |} in
  let reqs := replicate 100 (req, 1800%Q) in
  counts_for "10.0.0.1" (req, 0%Q) = true /\
  starts_window "10.0.0.1" 0 ∅ /\
  fst (serve ((req, 0%Q) :: reqs) ∅) !! 99%nat = Some None /\
  fst (serve ((req, 0%Q) :: reqs) ∅) !! 100%nat = Some rate_limited.
Proof.
  cbv zeta.
  assert (forall req t,
            (req, t) ∈ replicate 100 ({| path := "/download";
                                         remote_addr := "10.0.0.1" |}, 1800%Q) ->
            counts_for "10.0.0.1" (req, t) = true -> (t - 0 <= 3600)%Q) as Hin.
  { intros req t [[= -> ->] _]%elem_of_replicate _. discriminate. }
  split; [reflexivity|]. split; [exact I|]. split.
  - exact (proj1 (proj2 rate_limit_window) "10.0.0.1" ∅
             {| path := "/download"; remote_addr := "10.0.0.1" |} 0%Q
             (replicate 100 ({| path := "/download"; remote_addr := "10.0.0.1" |},
                             1800%Q))
             eq_refl I Hin 99%nat
             {| path := "/download"; remote_addr := "10.0.0.1" |} 1800%Q
             eq_refl eq_refl).
  - exact (proj1 (proj2 rate_limit_window) "10.0.0.1" ∅
             {| path := "/download"; remote_addr := "10.0.0.1" |} 0%Q
             (replicate 100 ({| path := "/download"; remote_addr := "10.0.0.1" |},
                             1800%Q))
             eq_refl I Hin 100%nat
             {| path := "/download"; remote_addr := "10.0.0.1" |} 1800%Q
             eq_refl eq_refl).
Defined.

End RateLimitFacts.

(** ** [_extract_size] *)

Module SizeFacts.
Import Re ReFacts StrFacts.

Lemma matches_in_lang r w c c' : matches r w c c' -> in_lang r w.
Proof. intros H. now exists c, c'. Qed.

(** Without groups, a match leaves the captured groups as they are. *)
Lemma matches_group_free r w c c' :
  matches r w c c' -> group_free r = true -> c' = c.
Proof.
  induction 1 as [c|p a c Hp|r1 r2 w1 w2 c c1 c2 _ IH1 _ IH2
                 |r1 r2 w c c1 _ IH|r1 r2 w c c1 _ IH|r c
                 |r w1 w2 c c1 c2 Hne _ IH1 _ IH2|n r w c c1 _ IH];
    simpl; intros Hg; try reflexivity; try discriminate.
  - apply andb_true_iff in Hg as [H1 H2]. now rewrite (IH2 H2), (IH1 H1).
  - apply andb_true_iff in Hg as [H1 H2]. auto.
  - apply andb_true_iff in Hg as [H1 H2]. auto.
  - now rewrite (IH2 Hg), (IH1 Hg).
Qed.

Lemma in_lang_group_free r w c :
  in_lang r w -> group_free r = true -> matches r w c c.
Proof.
  intros (d & d' & H) Hg.
  destruct (matches_any_start _ _ _ _ H c) as [c' H'].
  now rewrite (matches_group_free _ _ _ _ H' Hg) in H'.
Qed.

Lemma lower_length s : String.length (Str.lower s) = String.length s.
Proof.
  unfold Str.lower. induction s as [|a s IH]; [reflexivity|]. simpl. now rewrite IH.
Qed.

Lemma lower_cons a s :
  Str.lower (String a s) = String (Str.lower_char a) (Str.lower s).
Proof. reflexivity. Qed.

(** A literal under [re.IGNORECASE] matches the texts that agree with it
    once both are put in small letters. *)
Lemma in_lang_lit_i s w : in_lang (lit_i s) w <-> Str.lower w = Str.lower s.
Proof.
  revert w. induction s as [|a s IH]; intros w; cbn [lit_i].
  - rewrite in_lang_eps. split; [now intros ->|]. now destruct w.
  - rewrite in_lang_cat. unfold chr_i. split.
    + intros (w1 & w2 & -> & H1 & H2). apply in_lang_Chr in H1 as (b & -> & Hb).
      apply Ascii.eqb_eq in Hb. apply IH in H2.
      now rewrite app_cons, app_nil_l, !lower_cons, Hb, H2.
    + destruct w as [|b w]; [discriminate|]. rewrite !lower_cons. intros [= Hb Hw].
      exists (String b ""), w. split; [reflexivity|]. split.
      * apply in_lang_Chr. exists b. split; [reflexivity|].
        rewrite Hb. apply Ascii.eqb_refl.
      * now apply IH.
Qed.

Lemma unit_lang u : in_lang unit_pattern u <-> is_unit u.
Proof.
  unfold unit_pattern, is_unit. cbn [alts].
  now rewrite !in_lang_alt, !in_lang_lit_i.
Qed.

Lemma number_lang n : in_lang number_pattern n <-> is_number n.
Proof.
  unfold number_pattern, is_number, is_digits.
  rewrite in_lang_cat. split.
  - intros (d1 & x & -> & H1%in_lang_plus_class & [H2| ->]%in_lang_opt).
    + right. apply in_lang_cat in H2 as (y & d2 & -> & ->%in_lang_chr
                                                  & H2%in_lang_plus_class).
      now exists d1, d2.
    + left. now rewrite app_nil_r.
  - intros [H|(d1 & d2 & -> & H1 & H2)].
    + exists n, "". rewrite app_nil_r. split; [reflexivity|].
      split; [now apply in_lang_plus_class|]. apply in_lang_opt. now right.
    + exists d1, ("." ++ d2). split; [reflexivity|].
      split; [now apply in_lang_plus_class|]. apply in_lang_opt. left.
      apply in_lang_cat. exists ".", d2. split; [reflexivity|].
      split; [now apply in_lang_chr|now apply in_lang_plus_class].
Qed.

(** The matches of [size_pattern]: a number, white space, a unit; group 1
    holds the number and group 2 the unit. *)
Lemma size_pattern_matches w c' :
  matches size_pattern w ∅ c' <->
  exists n ws u,
    w = n ++ ws ++ u /\ is_number n /\ Str.all Str.isspace ws = true /\
    is_unit u /\ c' = <[2%nat := u]> (<[1%nat := n]> ∅).
Proof.
  unfold size_pattern. cbn [seq].
  fold number_pattern. fold unit_pattern. split.
  - intros H.
    inversion H as [| |? ? n w2 ? c1 ? Hn H2| | | | |]; subst; clear H.
    inversion Hn as [| | | | | | |? ? ? ? c0 Hn']; subst; clear Hn.
    inversion H2 as [| |? ? ws w3 ? c2 ? Hws H3| | | | |]; subst; clear H2.
    inversion H3 as [| |? ? u w4 ? c3 ? Hu H4| | | | |]; subst; clear H3.
    inversion Hu as [| | | | | | |? ? ? ? c4 Hu']; subst; clear Hu.
    inversion H4; subst; clear H4.
    pose proof (matches_group_free _ _ _ _ Hn' eq_refl) as ->.
    pose proof (matches_group_free _ _ _ _ Hws eq_refl) as ->.
    pose proof (matches_group_free _ _ _ _ Hu' eq_refl) as ->.
    exists n, ws, u. rewrite app_nil_r. split; [reflexivity|].
    split; [eapply number_lang, matches_in_lang; eauto|].
    split; [eapply in_lang_star_class, matches_in_lang; eauto|].
    split; [eapply unit_lang, matches_in_lang; eauto|reflexivity].
  - intros (n & ws & u & -> & Hn & Hws & Hu & ->).
    replace (n ++ ws ++ u) with (n ++ ws ++ u ++ "") by now rewrite app_nil_r.
    apply M_cat with (<[1%nat := n]> ∅).
    { constructor. apply in_lang_group_free; [now apply number_lang|reflexivity]. }
    apply M_cat with (<[1%nat := n]> ∅).
    { apply in_lang_group_free; [now apply in_lang_star_class|reflexivity]. }
    apply M_cat with (<[2%nat := u]> (<[1%nat := n]> ∅)); [|constructor].
    constructor. apply in_lang_group_free; [now apply unit_lang|reflexivity].
Qed.

(** Both groups take part in every match of [size_pattern]. *)
Lemma size_groups_set w c' :
  matches size_pattern w ∅ c' -> is_Some (c' !! 1%nat) /\ is_Some (c' !! 2%nat).
Proof.
  intros (n & ws & u & _ & _ & _ & _ & ->)%size_pattern_matches.
  split; eexists; reflexivity.
Qed.

(** *** At one place a text holds at most one size *)

Lemma span_unique (p : ascii -> bool) x x' R R' :
  Str.all p x = true -> Str.all p x' = true ->
  head_not p R -> head_not p R' ->
  x ++ R = x' ++ R' -> x = x' /\ R = R'.
Proof.
  revert x'. induction x as [|a x IH]; intros [|a' x'] Hx Hx' HR HR';
    rewrite ?app_cons, ?app_nil_l.
  - auto.
  - intros ->. simpl in Hx', HR. apply andb_true_iff in Hx' as [Ha _]. congruence.
  - intros <-. simpl in Hx, HR'. apply andb_true_iff in Hx as [Ha _]. congruence.
  - intros [= <- E]. simpl in Hx, Hx'.
    apply andb_true_iff in Hx as [_ Hx]. apply andb_true_iff in Hx' as [_ Hx'].
    destruct (IH x' Hx Hx' HR HR' E) as [-> ->]. auto.
Qed.

Lemma app_same_length (s s' x y : string) :
  s ++ x = s' ++ y -> String.length s = String.length s' -> s = s' /\ x = y.
Proof.
  revert s'. induction s as [|a s IH]; intros [|a' s']; try discriminate;
    rewrite ?app_cons, ?app_nil_l; [auto|].
  intros [= <- E] [= Hl]. destruct (IH s' E Hl) as [-> ->]. auto.
Qed.

Lemma digits_number_chars s :
  Str.all Str.isdigit s = true -> Str.all number_char s = true.
Proof.
  induction s as [|a s IH]; [reflexivity|]. simpl.
  intros [Ha Hs]%andb_true_iff. unfold number_char at 1. now rewrite Ha, IH.
Qed.

Lemma number_chars n : is_number n -> Str.all number_char n = true.
Proof.
  intros [[_ H]|(d1 & d2 & -> & [_ H1] & [_ H2])].
  - now apply digits_number_chars.
  - rewrite !all_app, (digits_number_chars _ H1), (digits_number_chars _ H2).
    reflexivity.
Qed.

Lemma number_nonempty n : is_number n -> n <> "".
Proof.
  intros [[H _]|(d1 & d2 & -> & [H _] & _)]; [exact H|].
  destruct d1; [contradiction|discriminate].
Qed.

(** A unit is two letters, and its first letter is neither white space nor
    part of a number. *)
Lemma unit_shape u :
  is_unit u ->
  exists a b, u = String a (String b "") /\
              Str.isspace a = false /\ number_char a = false.
Proof.
  unfold is_unit, Str.lower.
  destruct u as [|a [|b [|c u]]]; simpl;
    try (intros [H|[H|H]]; discriminate H).
  intros H. exists a, b. split; [reflexivity|].
  assert (Str.lower_char a = "m"%char \/ Str.lower_char a = "k"%char \/
          Str.lower_char a = "g"%char) as Ha.
  { destruct H as [H|[H|H]]; injection H; auto. }
  clear H. destruct a as [[] [] [] [] [] [] [] []]; vm_compute in Ha |- *;
    (split; [reflexivity|reflexivity]) ||
    (exfalso; destruct Ha as [Ha|[Ha|Ha]]; discriminate Ha).
Qed.

Lemma space_not_number_char a : Str.isspace a = true -> number_char a = false.
Proof.
  destruct a as [[] [] [] [] [] [] [] []]; vm_compute; intros;
    solve [reflexivity|discriminate].
Qed.

Lemma after_number ws u post :
  Str.all Str.isspace ws = true -> is_unit u ->
  head_not number_char (ws ++ u ++ post) /\ head_not Str.isspace (u ++ post).
Proof.
  intros Hws (a & b & -> & Hsp & Hnum)%unit_shape. split; [|exact Hsp].
  destruct ws as [|c ws]; [exact Hnum|]. simpl in Hws.
  apply andb_true_iff in Hws as [Hc _]. now apply space_not_number_char.
Qed.

Lemma size_at_unique text pre n u n' u' :
  size_at text pre n u -> size_at text pre n' u' -> n = n' /\ u = u'.
Proof.
  intros (ws & post & -> & Hn & Hws & Hu) (ws' & post' & E & Hn' & Hws' & Hu').
  apply app_inv_head in E.
  destruct (after_number ws u post Hws Hu) as [H1 H2].
  destruct (after_number ws' u' post' Hws' Hu') as [H1' H2'].
  apply (span_unique number_char) in E as [<- E];
    [|now apply number_chars..|assumption|assumption].
  apply (span_unique Str.isspace) in E as [<- E]; try assumption.
  apply unit_shape in Hu as (a & b & -> & _). apply unit_shape in Hu' as (a' & b' & -> & _).
  rewrite !app_cons in E. injection E as <- <- _. auto.
Qed.

Lemma size_at_lang text pre n u :
  size_at text pre n u ->
  exists w rest, text = pre ++ w ++ rest /\ in_lang size_pattern w.
Proof.
  intros (ws & post & -> & Hn & Hws & Hu).
  exists (n ++ ws ++ u), post. split; [now rewrite <- !app_assoc|].
  eapply matches_in_lang, size_pattern_matches. eauto 10.
Qed.

(** What [re.search] finds is a size in the text, at the leftmost place
    where the text holds one. *)
Lemma search_size_Some text m :
  re_search size_pattern text = Some m ->
  exists pre n u,
    size_at text pre n u /\ group m 1 = n /\ group m 2 = u /\
    forall pre' n' u', size_at text pre' n' u' ->
                       (String.length pre <= String.length pre')%nat.
Proof.
  intros (pre & w & rest & -> & Hm & Hleft)%re_search_Some.
  apply size_pattern_matches in Hm as (n & ws & u & -> & Hn & Hws & Hu & ->).
  exists pre, n, u. split; [|split; [reflexivity|split; [reflexivity|]]].
  - exists ws, rest. split; [now rewrite <- !app_assoc|auto].
  - intros pre' n' u' (w' & rest' & E & Hin)%size_at_lang.
    now apply (Hleft pre' w' rest').
Qed.

(** C4.  When the text holds a size (a number, optionally with a decimal
    part, then possibly white space, then MB, KB or GB in any case),
    [_extract_size] answers the number of the leftmost one, a space, and its
    unit in capitals; when the text holds none it answers "unknown"; on
    "Size: 12.5 MB" it answers "12.5 MB". *)
Theorem extract_size_spec :
  (forall text pre n u,
     size_at text pre n u ->
     (forall pre' n' u', size_at text pre' n' u' ->
                         (String.length pre <= String.length pre')%nat) ->
     _extract_size text = n ++ " " ++ Str.upper u) /\
  (forall text,
     (forall pre n u, ~ size_at text pre n u) ->
     _extract_size text = "unknown") /\
  _extract_size "Size: 12.5 MB" = "12.5 MB".
Proof.
  split; [|split; [|reflexivity]].
  - intros text pre n u Hocc Hmin. unfold _extract_size.
    destruct (re_search size_pattern text) as [m|] eqn:E.
    + apply search_size_Some in E as (pre1 & n1 & u1 & Hocc1 & -> & -> & Hleft).
      assert (pre1 = pre) as ->.
      { pose proof (Hmin _ _ _ Hocc1). pose proof (Hleft _ _ _ Hocc).
        destruct Hocc as (? & ? & E & _), Hocc1 as (? & ? & E1 & _).
        rewrite E in E1. apply app_same_length in E1 as [-> _]; [reflexivity|lia]. }
      now destruct (size_at_unique _ _ _ _ _ _ Hocc Hocc1) as [-> ->].
    + apply size_at_lang in Hocc as (w & rest & Ew & Hin).
      now apply (re_search_None _ _ E pre w rest) in Hin.
  - intros text Hnone. unfold _extract_size.
    destruct (re_search size_pattern text) as [m|] eqn:E; [|reflexivity].
    apply search_size_Some in E as (pre & n & u & Hocc & _).
    now apply Hnone in Hocc.
Qed.

Lemma extract_size_spec_witness :
  size_at "10mb, 1080p" "" "10" "mb" /\
  (forall pre' n' u', size_at "10mb, 1080p" pre' n' u' ->
                      (String.length "" <= String.length pre')%nat) /\
  _extract_size "10mb, 1080p" = "10 MB".
Proof.
  assert (size_at "10mb, 1080p" "" "10" "mb") as H.
  { exists "", ", 1080p". split; [reflexivity|]. split; [left; now split|].
    split; [reflexivity|]. left. reflexivity. }
  assert (forall pre' n' u', size_at "10mb, 1080p" pre' n' u' ->
                             (String.length "" <= String.length pre')%nat) as Hmin.
  { intros. simpl. lia. }
  split; [exact H|]. split; [exact Hmin|].
  exact (proj1 extract_size_spec _ _ _ _ H Hmin).
Defined.

End SizeFacts.

(* ===================================================================== *)
(** * Part III: further properties of the code                            *)
(* ===================================================================== *)

(** ** [sanitize_url]: what it answers *)

Module SanitizeMore.
Import Re ReFacts StrFacts SanitizeFacts ClassifyFacts.

Lemma plain_other c a : is_cut c -> plain_char a = true -> other_than c a = true.
Proof.
  unfold plain_char. intros [->| ->] [[_ H1]%andb_true_iff H2]%andb_true_iff;
    assumption.
Qed.

Lemma plain_not_space a : plain_char a = true -> Str.isspace a = false.
Proof.
  unfold plain_char. intros [[H _]%andb_true_iff _]%andb_true_iff.
  now apply negb_true_iff.
Qed.

Lemma id_char_plain a : id_char a = true -> plain_char a = true.
Proof.
  destruct a as [[] [] [] [] [] [] [] []]; vm_compute; intros;
    solve [reflexivity|discriminate].
Qed.

Lemma name_char_plain a : name_char a = true -> plain_char a = true.
Proof.
  destruct a as [[] [] [] [] [] [] [] []]; vm_compute; intros;
    solve [reflexivity|discriminate].
Qed.

Lemma scheme_plain s : is_scheme s -> Str.all plain_char s = true /\ s <> "".
Proof. intros [->| ->]; split; (reflexivity || discriminate). Qed.

Lemma host_plain s : is_host s -> Str.all plain_char s = true.
Proof. now intros [->| ->]. Qed.

Lemma segment_plain s : is_segment s -> Str.all plain_char s = true.
Proof.
  unfold is_segment. simpl. intros H.
  repeat (destruct H as [<-|H]; [reflexivity|]). easy.
Qed.

(** An accepted URL begins with a non-empty run of plain characters after
    which anything may follow. *)
Lemma accepted_head u :
  accepted u ->
  exists P rest, u = P ++ rest /\ P <> "" /\ Str.all plain_char P = true /\
                 forall rest', accepted (P ++ rest').
Proof.
  intros [(scheme & host & seg & ident & rest & -> & Hs & Hh & Hseg & Hid)
         |(scheme & host & name & rest & -> & Hs & Hh & Hname)].
  - exists (scheme ++ "://" ++ host ++ "/" ++ seg ++ "/" ++ ident), rest.
    destruct (scheme_plain _ Hs) as [Hsp Hne].
    split; [now rewrite <- !app_assoc|]. split.
    { destruct scheme; [contradiction|discriminate]. }
    split.
    + rewrite !all_app, Hsp, (host_plain _ Hh), (segment_plain _ Hseg).
      rewrite (all_impl id_char plain_char ident id_char_plain (proj2 Hid)).
      reflexivity.
    + intros rest'. left. exists scheme, host, seg, ident, rest'.
      split; [now rewrite <- !app_assoc|tauto].
  - exists (scheme ++ "://" ++ host ++ "/" ++ name), rest.
    destruct (scheme_plain _ Hs) as [Hsp Hne].
    split; [now rewrite <- !app_assoc|]. split.
    { destruct scheme; [contradiction|discriminate]. }
    split.
    + rewrite !all_app, Hsp, (host_plain _ Hh).
      rewrite (all_impl name_char plain_char name name_char_plain (proj2 Hname)).
      reflexivity.
    + intros rest'. right. exists scheme, host, name, rest'.
      split; [now rewrite <- !app_assoc|tauto].
Qed.

(** *** [strip] *)

Lemma lstrip_head a s : Str.isspace a = false -> Str.lstrip (String a s) = String a s.
Proof. intros H. simpl. now rewrite H. Qed.

Lemma rstrip_cons a s :
  Str.rstrip (String a s) =
  match Str.rstrip s with
  | "" => if Str.isspace a then "" else String a ""
  | r => String a r
  end.
Proof. reflexivity. Qed.

Lemma rstrip_idem s : Str.rstrip (Str.rstrip s) = Str.rstrip s.
Proof.
  induction s as [|a s IH]; [reflexivity|]. rewrite rstrip_cons.
  destruct (Str.rstrip s) as [|b r] eqn:E.
  - destruct (Str.isspace a) eqn:Ha; [reflexivity|].
    rewrite rstrip_cons. simpl. now rewrite Ha.
  - rewrite rstrip_cons, IH. reflexivity.
Qed.

(** [rstrip] takes a run of white space off the end. *)
Lemma rstrip_prefix s :
  exists ws, s = Str.rstrip s ++ ws /\ Str.all Str.isspace ws = true.
Proof.
  induction s as [|a s (ws & E & Hws)]; [now exists ""|]. rewrite rstrip_cons.
  destruct (Str.rstrip s) as [|b r] eqn:Er.
  - destruct (Str.isspace a) eqn:Ha.
    + exists (String a s). split; [reflexivity|]. simpl. rewrite Ha.
      rewrite app_nil_l in E. now rewrite E.
    + exists ws. split; [now rewrite app_cons, <- E|exact Hws].
  - exists ws. split; [now rewrite app_cons, <- E|exact Hws].
Qed.

Lemma rstrip_plain P rest :
  P <> "" -> Str.all plain_char P = true ->
  exists rest', Str.rstrip (P ++ rest) = P ++ rest'.
Proof.
  induction P as [|a P IH]; [contradiction|]. intros _ HP.
  simpl in HP. apply andb_true_iff in HP as [Ha HP].
  apply plain_not_space in Ha. rewrite app_cons, rstrip_cons.
  destruct P as [|b P].
  - rewrite app_nil_l. destruct (Str.rstrip rest) as [|c r].
    + rewrite Ha. now exists "".
    + now exists (String c r).
  - destruct (IH ltac:(discriminate) HP) as [rest' ->].
    rewrite app_cons. now exists rest'.
Qed.

Lemma split_head_all c s : Str.all (other_than c) (Str.split_head c s) = true.
Proof.
  induction s as [|a s IH]; [reflexivity|]. simpl.
  destruct (Ascii.eqb a c) eqn:E; [reflexivity|]. simpl.
  unfold other_than at 1. now rewrite E, IH.
Qed.

Lemma split_head_keeps p c s :
  Str.all p s = true -> Str.all p (Str.split_head c s) = true.
Proof.
  induction s as [|a s IH]; [reflexivity|]. simpl.
  intros [Ha Hs]%andb_true_iff.
  destruct (Ascii.eqb a c); [reflexivity|]. simpl. now rewrite Ha, IH.
Qed.

Lemma split_head_id c s :
  Str.all (other_than c) s = true -> Str.split_head c s = s.
Proof.
  intros H. rewrite <- (app_nil_r s) at 1.
  rewrite split_head_app by exact H. apply app_nil_r.
Qed.

Lemma all_other_not_occurs c s :
  Str.all (other_than c) s = true -> ~ occurs (String c "") s.
Proof.
  intros H (pre & post & ->). rewrite !all_app in H.
  apply andb_true_iff in H as [_ [H _]%andb_true_iff]. simpl in H.
  unfold other_than in H. now rewrite Ascii.eqb_refl in H.
Qed.

(** *** The answer *)

Lemma first_match_Some u v :
  first_match patterns u = Some v -> v = Str.strip u /\ accepted u.
Proof.
  unfold patterns, first_match.
  destruct (re_match pattern_media u) as [c1|] eqn:E1.
  { intros [= <-]. split; [reflexivity|]. left. apply re_match_media.
    now rewrite E1. }
  destruct (re_match pattern_profile u) as [c2|] eqn:E2; [|discriminate].
  intros [= <-]. split; [reflexivity|]. right. apply re_match_profile.
  now rewrite E2.
Qed.

(** What a successful [sanitize_url] hands back: an accepted URL, which is
    the text before the first [?] and [#] without its trailing white space. *)
Lemma sanitize_url_Some url u :
  sanitize_url url = Some u ->
  exists ws,
    Str.split_head "#" (Str.split_head "?" url) = u ++ ws /\
    Str.all Str.isspace ws = true /\
    accepted u /\ Str.strip u = u /\ u <> "".
Proof.
  unfold sanitize_url. intros [-> Hacc]%first_match_Some.
  set (cut := Str.split_head "#" (Str.split_head "?" url)) in *.
  destruct (accepted_head _ Hacc) as (P & rest & E & Hne & HP & Hall).
  assert (Str.lstrip cut = cut) as El.
  { rewrite E. destruct P as [|a P]; [contradiction|]. rewrite app_cons.
    apply lstrip_head, plain_not_space. simpl in HP.
    now apply andb_true_iff in HP as [Ha _]. }
  unfold Str.strip. rewrite El.
  destruct (rstrip_prefix cut) as (ws & Ews & Hws).
  destruct (rstrip_plain P rest Hne HP) as [rest' Er]. rewrite <- E in Er.
  exists ws. split; [exact Ews|]. split; [exact Hws|].
  split; [rewrite Er; apply Hall|]. split.
  - rewrite Er at 1. destruct P as [|a P]; [contradiction|].
    rewrite app_cons, lstrip_head, <- app_cons, <- Er; [apply rstrip_idem|].
    apply plain_not_space. simpl in HP. now apply andb_true_iff in HP as [Ha _].
  - rewrite Er. destruct P; [contradiction|discriminate].
Qed.

(** X2.  A URL that [sanitize_url] answers with is an initial part of the
    input, holds neither [?] nor [#], has no white space at either end, and
    is itself accepted. *)
Theorem sanitize_url_output url u :
  sanitize_url url = Some u ->
  (exists rest, url = u ++ rest) /\
  ~ occurs "?" u /\ ~ occurs "#" u /\
  Str.strip u = u /\ accepted u.
Proof.
  intros (ws & E & Hws & Hacc & Hstrip & _)%sanitize_url_Some.
  assert (forall c, is_cut c -> Str.all (other_than c) u = true) as Hcut.
  { intros c Hc.
    assert (Str.all (other_than c)
              (Str.split_head "#" (Str.split_head "?" url)) = true) as H.
    { destruct Hc as [->| ->]; [apply split_head_keeps|]; apply split_head_all. }
    rewrite E, all_app in H. now apply andb_true_iff in H as [H _]. }
  split; [|split; [|split; [|split]]]; try assumption.
  - destruct (split_head_prefix "?" url) as [r1 E1].
    destruct (split_head_prefix "#" (Str.split_head "?" url)) as [r2 E2].
    exists (ws ++ r2 ++ r1). rewrite E1 at 1. rewrite E2 at 1. rewrite E.
    now rewrite <- !app_assoc.
  - apply all_other_not_occurs, Hcut. now left.
  - apply all_other_not_occurs, Hcut. now right.
Qed.

(** X1.  [sanitize_url] leaves its own answers alone: sanitizing a sanitized
    URL gives it back unchanged. *)
Theorem sanitize_url_idempotent url u :
  sanitize_url url = Some u -> sanitize_url u = Some u.
Proof.
  intros (ws & E & Hws & Hacc & Hstrip & _)%sanitize_url_Some.
  assert (forall c, is_cut c -> Str.all (other_than c) u = true) as Hcut.
  { intros c Hc.
    assert (Str.all (other_than c)
              (Str.split_head "#" (Str.split_head "?" url)) = true) as H.
    { destruct Hc as [->| ->]; [apply split_head_keeps|]; apply split_head_all. }
    rewrite E, all_app in H. now apply andb_true_iff in H as [H _]. }
  unfold sanitize_url.
  rewrite (split_head_id "?" u) by (apply Hcut; now left).
  rewrite (split_head_id "#" u) by (apply Hcut; now right).
  rewrite (proj1 (first_match_patterns u) Hacc). now rewrite Hstrip.
Qed.

Lemma sanitize_url_output_witness :
  sanitize_url "https://instagram.com/p/Cx_1-a/?img_index=2#top  " =
    Some "https://instagram.com/p/Cx_1-a/" /\
  (exists rest, "https://instagram.com/p/Cx_1-a/?img_index=2#top  " =
                "https://instagram.com/p/Cx_1-a/" ++ rest) /\
  ~ occurs "?" "https://instagram.com/p/Cx_1-a/" /\
  ~ occurs "#" "https://instagram.com/p/Cx_1-a/" /\
  Str.strip "https://instagram.com/p/Cx_1-a/" = "https://instagram.com/p/Cx_1-a/" /\
  accepted "https://instagram.com/p/Cx_1-a/".
Proof.
  split; [reflexivity|].
  exact (sanitize_url_output "https://instagram.com/p/Cx_1-a/?img_index=2#top  "
           "https://instagram.com/p/Cx_1-a/" eq_refl).
Defined.

Lemma sanitize_url_idempotent_witness :
  sanitize_url "https://www.instagram.com/some.user  " =
    Some "https://www.instagram.com/some.user" /\
  sanitize_url "https://www.instagram.com/some.user" =
    Some "https://www.instagram.com/some.user".
Proof.
  split; [reflexivity|].
  exact (sanitize_url_idempotent "https://www.instagram.com/some.user  "
           "https://www.instagram.com/some.user" eq_refl).
Defined.

(** A URL of the media shape holds one of the markers [get_media_type]
    looks for. *)
Lemma media_url_classified u : media_url u -> get_media_type u <> "unknown".
Proof.
  intros (scheme & host & seg & ident & rest & -> & _ & _ & Hseg & _).
  assert (forall m, m = "/" ++ seg ++ "/" ->
            Str.contains m (scheme ++ "://" ++ host ++ "/" ++ seg ++ "/" ++
                            ident ++ rest) = true) as Hm.
  { intros m ->. apply contains_occurs.
    exists (scheme ++ "://" ++ host), (ident ++ rest).
    now rewrite <- !app_assoc. }
  unfold is_segment in Hseg. simpl in Hseg. unfold get_media_type.
  destruct Hseg as [<-|[<-|[<-|[<-|[<-|[<-|[]]]]]]];
    [rewrite (Hm "/p/" eq_refl)|rewrite (Hm "/reel/" eq_refl)
    |rewrite (Hm "/reels/" eq_refl)|rewrite (Hm "/stories/" eq_refl)
    |rewrite (Hm "/story/" eq_refl)|rewrite (Hm "/tv/" eq_refl)];
    repeat (destruct (Str.contains _ _); simpl; try discriminate).
Qed.

(** X3.  Of the URLs [sanitize_url] answers with, those of the media shape
    are never classified "unknown"; so a sanitized URL that [get_all] has
    to try endpoint after endpoint is one of the profile shape only. *)
Theorem unknown_only_for_profiles url u :
  sanitize_url url = Some u ->
  (media_url u -> get_media_type u <> "unknown") /\
  (get_media_type u = "unknown" -> profile_url u /\ ~ media_url u).
Proof.
  intros (_ & _ & _ & Hacc & _)%sanitize_url_Some.
  split; [apply media_url_classified|].
  intros Hu.
  assert (~ media_url u) as Hn by (intros H%media_url_classified; contradiction).
  split; [|exact Hn]. now destruct Hacc.
Qed.

Lemma unknown_only_for_profiles_witness :
  sanitize_url "https://www.instagram.com/someuser/?hl=en" =
    Some "https://www.instagram.com/someuser/" /\
  get_media_type "https://www.instagram.com/someuser/" = "unknown" /\
  profile_url "https://www.instagram.com/someuser/" /\
  ~ media_url "https://www.instagram.com/someuser/".
Proof.
  split; [reflexivity|]. split; [reflexivity|].
  exact (proj2 (unknown_only_for_profiles
                  "https://www.instagram.com/someuser/?hl=en"
                  "https://www.instagram.com/someuser/" eq_refl) eq_refl).
Defined.

End SanitizeMore.

(** ** [_extract_size]: what it answers *)

Module SizeMore.
Import Re ReFacts StrFacts SizeFacts.

Lemma lower_letter_upper a :
  (Str.lower_char a = "m"%char -> Str.upper_char a = "M"%char) /\
  (Str.lower_char a = "k"%char -> Str.upper_char a = "K"%char) /\
  (Str.lower_char a = "g"%char -> Str.upper_char a = "G"%char) /\
  (Str.lower_char a = "b"%char -> Str.upper_char a = "B"%char).
Proof.
  destruct a as [[] [] [] [] [] [] [] []]; vm_compute;
    repeat split; intros H; solve [reflexivity|discriminate H].
Qed.

(** A unit in capitals is MB, KB or GB. *)
Lemma upper_unit u :
  is_unit u -> Str.upper u = "MB" \/ Str.upper u = "KB" \/ Str.upper u = "GB".
Proof.
  unfold is_unit, Str.lower, Str.upper.
  destruct u as [|a [|b [|c u]]]; simpl;
    try (intros [H|[H|H]]; discriminate H).
  destruct (lower_letter_upper a) as (Hm & Hk & Hg & _).
  destruct (lower_letter_upper b) as (_ & _ & _ & Hb).
  intros [H|[H|H]]; injection H as Ha Hb'; rewrite (Hb Hb');
    [rewrite (Hm Ha)|rewrite (Hk Ha)|rewrite (Hg Ha)]; auto.
Qed.

(** A size at the very start of the text is the one [_extract_size] reads. *)
Lemma extract_size_front text n u :
  size_at text "" n u -> _extract_size text = n ++ " " ++ Str.upper u.
Proof.
  intros Hocc. unfold _extract_size.
  destruct (re_search size_pattern text) as [m|] eqn:E.
  - apply search_size_Some in E as (pre1 & n1 & u1 & Hocc1 & -> & -> & Hleft).
    apply Hleft in Hocc as Hlen. simpl in Hlen.
    destruct pre1; [|simpl in Hlen; lia].
    now destruct (size_at_unique _ _ _ _ _ _ Hocc Hocc1) as [-> ->].
  - apply size_at_lang in Hocc as (w & rest & Ew & Hin).
    now apply (re_search_None _ _ E "" w rest) in Hin.
Qed.


Lemma extract_size_cases text :
  _extract_size text = "unknown" \/
  exists n u, is_number n /\ is_unit u /\
              _extract_size text = n ++ " " ++ Str.upper u.
Proof.
  unfold _extract_size.
  destruct (re_search size_pattern text) as [m|] eqn:E; [right|now left].
  apply search_size_Some in E as (pre & n & u & Hocc & -> & -> & _).
  destruct Hocc as (_ & _ & _ & Hn & _ & Hu). now exists n, u.
Qed.

(** X6.  An answer of [_extract_size] reads back as itself. *)
Theorem extract_size_idempotent text :
  _extract_size (_extract_size text) = _extract_size text.
Proof.
  destruct (extract_size_cases text) as [->|(n & u & Hn & HU%upper_unit & ->)];
    [reflexivity|].
  assert (is_unit (Str.upper u) /\ Str.upper (Str.upper u) = Str.upper u)
    as [Hu Huu].
  { destruct HU as [->|[->| ->]]; split; try reflexivity;
      [left|right; left|right; right]; reflexivity. }
  rewrite (extract_size_front (n ++ " " ++ Str.upper u) n (Str.upper u)).
  - now rewrite Huu.
  - exists " ", "". split; [now rewrite app_nil_l, app_nil_r|]. auto.
Qed.

End SizeMore.

(** ** The extractor and [get_all]: what they answer *)

Module ExtractMore.
Import StrFacts DedupFacts ClassifyFacts ExtractFacts RequestFacts.

Local Open Scope list_scope.

Lemma remove_duplicates_NoDup_id l :
  NoDup (item_url <$> l) -> remove_duplicates l = l.
Proof.
  induction l as [|x l IH] using rev_ind; [reflexivity|].
  rewrite fmap_app. intros (Hl & Hx & _)%NoDup_app.
  rewrite remove_duplicates_snoc. case_bool_decide as Hin.
  - exfalso. apply (Hx _ Hin). now left.
  - now rewrite IH.
Qed.

(** X7.  A candidate list without a repeated url passes through
    [remove_duplicates] unchanged; so removing duplicates twice is the same
    as removing them once. *)
Theorem remove_duplicates_fixpoint :
  (forall l, NoDup (item_url <$> l) -> remove_duplicates l = l) /\
  (forall l, remove_duplicates (remove_duplicates l) = remove_duplicates l).
Proof.
  split; [apply remove_duplicates_NoDup_id|].
  intros l. apply remove_duplicates_NoDup_id, remove_duplicates_NoDup.
Qed.

Lemma remove_duplicates_fixpoint_witness :
  let a := {| item_url := "https://x/a.mp4"; item_type := "video";
              item_quality := "hd"; item_size := "unknown" |} in
  let b := {| item_url := "https://x/b.jpg"; item_type := "image";
              item_quality := "standard"; item_size := "2 MB" |} in
  NoDup (item_url <$> [a; b]) /\ remove_duplicates [a; b] = [a; b].
Proof.
  cbv zeta.
  assert (NoDup (item_url <$>
            [{| item_url := "https://x/a.mp4"; item_type := "video";
                item_quality := "hd"; item_size := "unknown" |};
             {| item_url := "https://x/b.jpg"; item_type := "image";
                item_quality := "standard"; item_size := "2 MB" |}])) as H.
  { simpl. repeat constructor; rewrite ?elem_of_cons, ?elem_of_nil;
      intuition discriminate. }
  split; [exact H|]. exact (proj1 remove_duplicates_fixpoint _ H).
Defined.

Lemma remove_duplicates_empty l : remove_duplicates l = [] <-> l = [].
Proof.
  split; [|now intros ->]. intros E. destruct l as [|x l]; [reflexivity|].
  assert (item_url x ∈ item_url <$> remove_duplicates (x :: l)) as H.
  { apply remove_duplicates_urls. rewrite fmap_cons. now left. }
  rewrite E in H. now apply elem_of_nil in H.
Qed.

Lemma remove_duplicates_elem l item : item ∈ remove_duplicates l -> item ∈ l.
Proof.
  intros (l1 & l2 & -> & _)%remove_duplicates_first.
  apply elem_of_app. right. now left.
Qed.

Lemma any_ext_occurs exts s :
  any_ext exts s = true -> exists ext, ext ∈ exts /\ occurs ext s.
Proof.
  unfold any_ext. intros (ext & Hin & H)%existsb_exists.
  exists ext. split; [now apply list_elem_of_In|now apply contains_occurs].
Qed.

Lemma nonempty_ne s : Str.nonempty s = true -> s <> "".
Proof. now destruct s. Qed.

Section Pages.

Variable unescape : string -> string.

(** X8.  Every media item of a result has a url that is not empty and a type
    that is "video" or "image"; the url of an image item holds one of the
    image extensions. *)
Theorem media_items_typed p media :
  extract unescape p !! "media" = Some (VMedia media) ->
  forall item, item ∈ media ->
    item_url item <> "" /\
    (item_type item = "video" \/
     (item_type item = "image" /\
      exists ext, ext ∈ image_exts /\ occurs ext (item_url item))).
Proof.
  intros (-> & _ & _)%extract_media item Hitem%remove_duplicates_elem.
  apply collect_elem in Hitem as [(a & _ & H)|[(a & _ & H)|(src & _ & H)]].
  - apply video_step_elem in H as (Hne%nonempty_ne & _ & ->). auto.
  - apply image_step_elem in H as (Hne%nonempty_ne & Hext%any_ext_occurs & ->).
    auto.
  - apply source_step_elem in H as (Hne%nonempty_ne & _ & ->). auto.
Qed.

(** X9.  The answer for a page is the error "No media found" exactly when
    none of its links and sources makes a candidate; otherwise it is a
    success whose media are at most as many as the candidates. *)
Theorem extract_error_iff p :
  (extract unescape p = error_result "No media found" <->
   collect unescape p = []) /\
  (collect unescape p <> [] ->
   exists media,
     extract unescape p = success_result media (page_metadata p) /\
     media <> [] /\ length media <= length (collect unescape p)).
Proof.
  unfold extract.
  destruct (remove_duplicates (collect unescape p)) as [|x m] eqn:E.
  - apply (proj1 (remove_duplicates_empty _)) in E. rewrite E. split; [tauto|].
    now intros [].
  - split.
    + split.
      * intros H. apply (f_equal (fun r => r !! "media")) in H. discriminate H.
      * intros H. rewrite H in E. discriminate E.
    + intros _. exists (x :: m). split; [reflexivity|]. split; [discriminate|].
      rewrite <- E. apply sublist_length, remove_duplicates_sublist.
Qed.

Lemma extract_well_formed p : well_formed (extract unescape p).
Proof.
  unfold extract.
  destruct (remove_duplicates (collect unescape p)) as [|x m] eqn:E.
  - right. now eexists.
  - left. exists (x :: m), (page_metadata p). split; [discriminate|].
    split; [|reflexivity]. rewrite <- E. apply remove_duplicates_NoDup.
Qed.

Variable quote : string -> string.
Variable network : list string -> string -> outcome.

Abbreviation download := (download_from_snapdownloader unescape quote network).

Lemma download_well_formed url e log : well_formed (fst (download url e log)).
Proof.
  unfold download_from_snapdownloader, bind, http_get, ret.
  destruct (network log _) as [[] msg|resp]; simpl; [right; now eexists..|].
  destruct (negb _); simpl; [right; now eexists|apply extract_well_formed].
Qed.

(** The loop of [get_all] over a list of endpoints: the result is well
    formed, and the requests are those of an initial part of the list. *)
Lemma try_all_endpoints es url : forall log,
  let funcs := List.map (fun e u => download u e) es in
  well_formed (fst (try_all funcs url log)) /\
  exists n,
    n <= length es /\ (es <> [] -> 1 <= n) /\
    snd (try_all funcs url log) =
    log ++ List.map (fun e => (e ++ quote url)%string) (take n es).
Proof.
  induction es as [|e es IH]; intros log; cbv zeta; simpl.
  - split; [right; now eexists|]. exists 0. rewrite List.app_nil_r.
    repeat split; [lia|congruence].
  - unfold bind at 1 2. rewrite (download_pair unescape quote network url e log).
    destruct (status_is "success" _) eqn:Hs; simpl.
    + split; [apply download_well_formed|]. exists 1. simpl.
      split; [lia|]. split; [lia|reflexivity].
    + destruct (IH (log ++ [(e ++ quote url)%string])) as (Hwf & n & Hn & _ & Hlog).
      split; [exact Hwf|]. exists (S n). simpl in *.
      rewrite Hlog, <- List.app_assoc.
      split; [lia|]. split; [lia|reflexivity].
Qed.

Lemma get_all_well_formed url log :
  well_formed (fst (get_all unescape quote network url log)).
Proof.
  unfold get_all.
  repeat (destruct (String.eqb _ _); [apply download_well_formed|]).
  apply (try_all_endpoints
           [Config.REEL_DOWNLOADER; Config.POST_DOWNLOADER;
            Config.IGTV_DOWNLOADER] url log).
Qed.


End Pages.

Lemma media_items_typed_witness :
  let a := {| a_class := []; a_href := Some "https://x/pic.jpeg";
              a_text := "Save" |} in
  let p := {| p_title := None; p_anchors := [a]; p_sources := [] |} in
  let item := {| item_url := "https://x/pic.jpeg"; item_type := "image";
                 item_quality := "standard"; item_size := "unknown" |} in
  extract unescape_plain p !! "media" = Some (VMedia [item]) /\
  item_url item <> "" /\
  (item_type item = "video" \/
   (item_type item = "image" /\
    exists ext, ext ∈ image_exts /\ occurs ext (item_url item))).
Proof.
  cbv zeta. split; [reflexivity|].
  exact (media_items_typed unescape_plain
           {| p_title := None;
              p_anchors := [{| a_class := []; a_href := Some "https://x/pic.jpeg";
                               a_text := "Save" |}];
              p_sources := [] |} _ eq_refl _ (list_elem_of_here _ _)).
Defined.

Lemma extract_error_iff_witness :
  let a := {| a_class := ["btn-download"]; a_href := Some "https://x/page.html";
              a_text := "Download" |} in
  let p := {| p_title := Some "t"; p_anchors := [a]; p_sources := [None] |} in
  collect unescape_plain p = [] /\
  extract unescape_plain p = error_result "No media found".
Proof.
  cbv zeta. split; [reflexivity|].
  exact (proj2 (proj1 (extract_error_iff unescape_plain
                         {| p_title := Some "t";
                            p_anchors := [{| a_class := ["btn-download"];
                                             a_href := Some "https://x/page.html";
                                             a_text := "Download" |}];
                            p_sources := [None] |})) eq_refl).
Defined.


End ExtractMore.

(** ** The routes *)

Module RouteFacts.
Import StrFacts ClassifyFacts ExtractFacts RequestFacts SanitizeFacts
  SanitizeMore ExtractMore.

Local Open Scope list_scope.

Lemma size_with_url (data : gmap string jvalue) v :
  data !! "url" = Some v -> (size data =? 0)%nat = false.
Proof.
  intros H. apply Nat.eqb_neq. intros E%map_size_empty_iff.
  rewrite E in H. discriminate H.
Qed.

Lemma sanitize_accepted s :
  accepted s -> sanitize_url s = Some (sanitized s) /\ sanitized s <> "".
Proof.
  intros H.
  assert (sanitize_url s = Some (sanitized s)) as E.
  { unfold sanitize_url, sanitized.
    apply (proj1 (first_match_patterns _)). now apply (proj1 (accepted_cut s)). }
  split; [exact E|]. now apply sanitize_url_Some in E as (_ & _ & _ & _ & _ & ?).
Qed.



Lemma with_url_accepted (data : gmap string jvalue) s k log :
  data !! "url" = Some (JStr s) -> accepted s ->
  with_url (Some data) k log = k (sanitized s) log.
Proof.
  intros H Hs. unfold with_url.
  destruct (sanitize_accepted s Hs) as [E Hne].
  rewrite (size_with_url _ _ H), H, E. simpl.
  now destruct (sanitized s).
Qed.


Lemma sanitize_Some_accepted s u : sanitize_url s = Some u -> accepted s.
Proof.
  unfold sanitize_url. intros [_ H]%first_match_Some.
  now apply (proj2 (accepted_cut s)).
Qed.

Lemma any_ext_iff exts s :
  any_ext exts s = true <-> exists ext, ext ∈ exts /\ occurs ext s.
Proof.
  split; [apply any_ext_occurs|].
  intros (ext & Hin%list_elem_of_In & H%contains_occurs).
  unfold any_ext. apply existsb_exists. eauto.
Qed.


(** [url.split('/')[-1]]: what is left after the last slash. *)
Lemma split_last_spec c s :
  exists pre,
    s = (pre ++ Str.split_last c s)%string /\
    Str.contains (String c "") (Str.split_last c s) = false /\
    (pre = "" \/ exists pre', pre = (pre' ++ String c "")%string).
Proof.
  induction s as [|a s (pre & E & Hno & Hpre)].
  - exists "". now repeat split; [left].
  - simpl. destruct (Str.contains (String c "") s) eqn:Hc.
    + exists (String a pre). split; [now rewrite app_cons, <- E|].
      split; [exact Hno|]. right. destruct Hpre as [->|[pre' ->]].
      * rewrite app_nil_l in E. rewrite <- E in Hno. congruence.
      * now exists (String a pre').
    + destruct (Ascii.eqb_spec a c) as [->|Hne].
      * exists (String c ""). split; [reflexivity|]. split; [exact Hc|].
        right. now exists "".
      * exists "". split; [reflexivity|]. split; [|now left].
        rewrite contains_unfold, Hc. cbn [String.prefix].
        destruct (ascii_dec c a) as [->|_]; [contradiction|reflexivity].
Qed.

Section Routes.

Variable unescape : string -> string.
Variable quote : string -> string.
Variable network : list string -> string -> outcome.

Abbreviation download := (download_from_snapdownloader unescape quote network).

(** X15.  [/proxy] sends a request exactly for a url that is not empty and
    holds one of the four extensions anywhere, in any case: then it sends the
    one request for the url as given; otherwise, and without a url, it sends
    nothing. *)
Theorem proxy_requests :
  (forall media_url log,
     fetchable media_url ->
     snd (proxy_download network (Some media_url) log) = log ++ [media_url]) /\
  (forall media_url log,
     ~ fetchable media_url ->
     snd (proxy_download network (Some media_url) log) = log) /\
  (forall log, snd (proxy_download network None log) = log).
Proof.
  split; [|split; [|reflexivity]]; intros media_url log; unfold fetchable.
  - intros [Hne Hext%any_ext_iff]. unfold proxy_download.
    destruct media_url as [|a m]; [contradiction|]. rewrite Hext. simpl.
    unfold bind, http_get, ret.
    destruct (network log _) as [t msg|r]; [reflexivity|].
    now destruct (negb _).
  - intros Hn. unfold proxy_download.
    destruct media_url as [|a m]; [reflexivity|].
    destruct (any_ext proxy_exts (Str.lower (String a m))) eqn:Hext;
      [|reflexivity].
    exfalso. apply Hn. split; [discriminate|]. now apply any_ext_iff.
Qed.

(** X16.  When [/proxy] answers with a file, the url was one it sends for,
    the one request for it was answered with status 200, the file holds the
    body of that response under its Content-Type (or
    application/octet-stream without one), and the download name is what
    stands in the url after its last slash: it ends the url and holds no
    slash. *)
Theorem proxy_file_reply args log name mime data :
  fst (proxy_download network args log) = SendFile name mime data ->
  exists media_url r pre,
    args = Some media_url /\ fetchable media_url /\
    network log media_url = Returned r /\ status_code r = 200%Z /\
    data = content r /\
    mime = default "application/octet-stream" (content_type r) /\
    media_url = (pre ++ name)%string /\ ~ occurs "/" name /\
    (pre = "" \/ exists pre', pre = (pre' ++ "/")%string).
Proof.
  unfold proxy_download.
  destruct args as [[|a m]|]; [discriminate| |discriminate].
  destruct (any_ext proxy_exts (Str.lower (String a m))) eqn:Hext;
    [|discriminate].
  simpl. unfold bind, http_get, ret.
  destruct (network log (String a m)) as [t msg|r] eqn:Hnet; [discriminate|].
  destruct (status_code r =? 200)%Z eqn:Hst; [|discriminate].
  simpl. intros [= <- <- <-].
  destruct (split_last_spec "/" (String a m)) as (pre & E & Hno & Hpre).
  exists (String a m), r, pre. split; [reflexivity|].
  split; [split; [discriminate|now apply any_ext_iff]|].
  split; [exact Hnet|]. split; [now apply Z.eqb_eq|].
  split; [reflexivity|]. split; [reflexivity|]. split; [exact E|].
  split; [now apply contains_false|exact Hpre].
Qed.




(** X12.  For a body whose url is accepted, [/download] answers with status
    200 and the result of [get_all] on the sanitized URL, which is well
    formed: also an upstream failure comes back under status 200, as the
    error dict. *)
Theorem download_all_accepted (data : gmap string jvalue) s log :
  data !! "url" = Some (JStr s) -> accepted s ->
  sanitize_url s = Some (sanitized s) /\
  download_all unescape quote network (Some data) log =
    (Json (fst (get_all unescape quote network (sanitized s) log)) 200,
     snd (get_all unescape quote network (sanitized s) log)) /\
  well_formed (fst (get_all unescape quote network (sanitized s) log)).
Proof.
  intros H Hs. split; [now apply sanitize_accepted|].
  split; [|apply get_all_well_formed].
  unfold download_all. rewrite (with_url_accepted _ s _ _ H Hs).
  unfold bind, ret. now destruct (get_all _ _ _ _ _).
Qed.


(** X14.  For a body whose url is accepted, [/info] sends what [get_all]
    sends and answers 200.  After a success the body holds the sanitized URL,
    its media type, the media of the result under ['media_items'], their
    number under ['media_count'] and the metadata, and neither ['media'] nor
    ['count']; after a failure it is the error dict of [get_all]. *)
Theorem get_info_accepted (data : gmap string jvalue) s log :
  data !! "url" = Some (JStr s) -> accepted s ->
  let url := sanitized s in
  let result := fst (get_all unescape quote network url log) in
  snd (get_info unescape quote network (Some data) log) =
    snd (get_all unescape quote network url log) /\
  ((exists media metadata info,
      result = success_result media metadata /\
      fst (get_info unescape quote network (Some data) log) = Json info 200 /\
      info !! "status" = Some (VStr "success") /\
      info !! "url" = Some (VStr url) /\
      info !! "media_type" = Some (VStr (get_media_type url)) /\
      info !! "media_count" = Some (VInt (Z.of_nat (length media))) /\
      info !! "media_items" = Some (VMedia media) /\
      info !! "metadata" = Some (VDict metadata) /\
      info !! "media" = None /\ info !! "count" = None) \/
   (exists msg,
      result = error_result msg /\
      fst (get_info unescape quote network (Some data) log) =
        Json (error_result msg) 200)).
Proof.
  intros H Hs url result. unfold get_info.
  rewrite (with_url_accepted _ s _ _ H Hs). fold url.
  unfold bind, ret.
  pose proof (get_all_well_formed unescape quote network url log) as Hwf.
  fold result in Hwf. subst result.
  destruct (get_all unescape quote network url log) as [r log'].
  simpl in *.
  destruct Hwf as [(media & metadata & _ & _ & ->)|(msg & ->)].
  - split; [reflexivity|]. left. eexists media, metadata, _.
    split; [reflexivity|]. split; [reflexivity|]. now repeat split.
  - split; [reflexivity|]. right. now exists msg.
Qed.

End Routes.


Lemma download_all_accepted_witness :
  let s := "https://www.instagram.com/reel/ABC123/?utm=1" in
  let data : gmap string jvalue := {[ "url" := JStr s ]} in
  data !! "url" = Some (JStr s) /\ accepted s /\
  download_all unescape_plain quote_sample network_down (Some data) [] =
    (Json (error_result "Request timeout") 200,
     [(Config.REEL_DOWNLOADER ++ "https://www.instagram.com/reel/ABC123/")%string]).
Proof.
  cbv zeta.
  assert (accepted "https://www.instagram.com/reel/ABC123/?utm=1") as H.
  { now apply (sanitize_Some_accepted _ "https://www.instagram.com/reel/ABC123/"). }
  split; [reflexivity|]. split; [exact H|].
  exact (proj1 (proj2 (download_all_accepted unescape_plain quote_sample
                         network_down
                         {[ "url" := JStr "https://www.instagram.com/reel/ABC123/?utm=1" ]}
                         "https://www.instagram.com/reel/ABC123/?utm=1" []
                         eq_refl H))).
Defined.


Lemma get_info_accepted_witness :
  let s := "https://www.instagram.com/p/ABC/" in
  let data : gmap string jvalue := {[ "url" := JStr s ]} in
  data !! "url" = Some (JStr s) /\ accepted s /\
  snd (get_info unescape_plain quote_sample network_down (Some data) []) =
    snd (get_all unescape_plain quote_sample network_down (sanitized s) []).
Proof.
  cbv zeta.
  assert (accepted "https://www.instagram.com/p/ABC/") as H.
  { now apply (sanitize_Some_accepted _ "https://www.instagram.com/p/ABC/"). }
  split; [reflexivity|]. split; [exact H|].
  exact (proj1 (get_info_accepted unescape_plain quote_sample network_down
                  {[ "url" := JStr "https://www.instagram.com/p/ABC/" ]}
                  "https://www.instagram.com/p/ABC/" [] eq_refl H)).
Defined.


Lemma proxy_requests_witness :
  fetchable "https://cdn.example/v/clip.MP4?sig=1" /\
  snd (proxy_download network_down (Some "https://cdn.example/v/clip.MP4?sig=1") [])
  = ["https://cdn.example/v/clip.MP4?sig=1"].
Proof.
  assert (fetchable "https://cdn.example/v/clip.MP4?sig=1") as H.
  { split; [discriminate|]. exists ".mp4". split; [apply list_elem_of_here|].
    now apply contains_occurs. }
  split; [exact H|].
  exact (proj1 (proxy_requests network_down) _ [] H).
Defined.

Lemma proxy_file_reply_witness :
  fst (proxy_download network_ok (Some "https://cdn.example/v/clip.mp4") []) =
    SendFile "clip.mp4" "video/mp4" "bytes" /\
  exists media_url r pre,
    Some "https://cdn.example/v/clip.mp4" = Some media_url /\
    fetchable media_url /\
    network_ok [] media_url = Returned r /\ status_code r = 200%Z /\
    "bytes" = content r /\
    "video/mp4" = default "application/octet-stream" (content_type r) /\
    media_url = (pre ++ "clip.mp4")%string /\ ~ occurs "/" "clip.mp4" /\
    (pre = "" \/ exists pre', pre = (pre' ++ "/")%string).
Proof.
  split; [reflexivity|].
  exact (proxy_file_reply network_ok (Some "https://cdn.example/v/clip.mp4") []
           "clip.mp4" "video/mp4" "bytes" eq_refl).
Defined.

End RouteFacts.

(** ** The rate limiter: what it keeps *)

Module RateLimitMore.
Import RateLimitFacts.

Local Open Scope list_scope.

Lemma before_request_cases req t rc :
  (path req = "/health" /\ before_request req t rc = (None, rc)) \/
  (path req <> "/health" /\
   before_request req t rc =
   (if fst (check_rate_limit (remote_addr req) t rc) then None
    else Some (Json (error_result "Rate limit exceeded. Please try again later.")
                 429),
    snd (check_rate_limit (remote_addr req) t rc))).
Proof.
  unfold before_request.
  destruct (String.eqb_spec (path req) "/health") as [E|N]; [now left|right].
  split; [exact N|].
  now destruct (check_rate_limit (remote_addr req) t rc) as [[] rc'].
Qed.

Lemma check_rate_limit_range ip t rc :
  counts_in_range rc -> counts_in_range (snd (check_rate_limit ip t rc)).
Proof.
  intros Hrc ip' e'. unfold check_rate_limit.
  destruct (rc !! ip) as [e|] eqn:He; simpl.
  - destruct (Qlt_le_dec _ _); simpl.
    + rewrite lookup_insert. case_decide; [intros [= <-]; simpl; lia|apply Hrc].
    + destruct (100 <=? count e)%Z eqn:Hc; simpl; [apply Hrc|].
      rewrite lookup_insert. case_decide; [|apply Hrc].
      intros [= <-]. simpl. apply Z.leb_gt in Hc.
      specialize (Hrc ip e He). lia.
  - rewrite lookup_insert. case_decide; [intros [= <-]; simpl; lia|apply Hrc].
Qed.

(** X17.  Every counter is at least 1 and at most 100, and stays so whatever
    requests come in, at whatever times. *)
Theorem counts_stay_in_range reqs rc :
  counts_in_range rc -> counts_in_range (snd (serve reqs rc)).
Proof.
  revert rc. induction reqs as [|[req t] reqs IH]; intros rc Hrc; [exact Hrc|].
  rewrite serve_cons. cbn [snd]. apply IH.
  destruct (before_request_cases req t rc) as [[_ ->]|[_ ->]]; [exact Hrc|].
  now apply check_rate_limit_range.
Qed.

Lemma check_rate_limit_dom ip t rc :
  dom (snd (check_rate_limit ip t rc)) = {[ip]} ∪ dom rc.
Proof.
  unfold check_rate_limit. destruct (rc !! ip) as [e|] eqn:He; simpl.
  - destruct (Qlt_le_dec _ _); simpl; [apply dom_insert_L|].
    destruct (100 <=? count e)%Z; simpl; [|apply dom_insert_L].
    assert (ip ∈ dom rc) as Hin by (apply elem_of_dom; eauto).
    apply set_eq. intros x. rewrite elem_of_union, elem_of_singleton.
    split; [auto|]. now intros [->|].
  - apply dom_insert_L.
Qed.

(** X18.  The limiter never drops a counter: after any requests, the
    addresses with a counter are those that had one before and those of the
    requests to paths other than [/health]. *)
Theorem counters_only_grow reqs rc :
  dom (snd (serve reqs rc)) = dom rc ∪ limited_addrs reqs.
Proof.
  revert rc. induction reqs as [|[req t] reqs IH]; intros rc.
  - unfold limited_addrs. simpl. now rewrite (right_id_L ∅ (∪)).
  - rewrite serve_cons. cbn [snd]. rewrite IH. unfold limited_addrs. simpl.
    destruct (before_request_cases req t rc) as [[E ->]|[N ->]].
    + rewrite E. reflexivity.
    + apply String.eqb_neq in N. rewrite N. simpl.
      rewrite check_rate_limit_dom.
      rewrite (comm_L (∪) {[remote_addr req]} (dom rc)).
      now rewrite <- (assoc_L (∪)).
Qed.

(** The answer to a request, and what becomes of the counter of its address,
    depend on that counter alone. *)
Lemma before_request_local ip req t rc1 rc2 :
  counts_for ip (req, t) = true -> rc1 !! ip = rc2 !! ip ->
  fst (before_request req t rc1) = fst (before_request req t rc2) /\
  snd (before_request req t rc1) !! ip = snd (before_request req t rc2) !! ip.
Proof.
  unfold counts_for, before_request. simpl.
  destruct (String.eqb_spec (path req) "/health") as [_|_]; [discriminate|].
  destruct (String.eqb_spec (remote_addr req) ip) as [->|_]; [|discriminate].
  intros _ E. unfold check_rate_limit. rewrite <- E.
  destruct (rc1 !! ip) as [e|] eqn:E1; simpl.
  - destruct (Qlt_le_dec _ _); simpl; [now rewrite !lookup_insert_eq|].
    destruct (100 <=? count e)%Z; simpl; [|now rewrite !lookup_insert_eq].
    split; [reflexivity|congruence].
  - now rewrite !lookup_insert_eq.
Qed.

(** X19.  Addresses do not affect each other: the replies to the requests
    that count against an address, and the counter it ends with, are what
    they would be had no other request been made. *)
Theorem addresses_are_isolated ip reqs : forall rc1 rc2,
  rc1 !! ip = rc2 !! ip ->
  replies_for ip reqs (fst (serve reqs rc1)) =
    fst (serve (List.filter (counts_for ip) reqs) rc2) /\
  snd (serve reqs rc1) !! ip =
    snd (serve (List.filter (counts_for ip) reqs) rc2) !! ip.
Proof.
  induction reqs as [|[req t] reqs IH]; intros rc1 rc2 E; [now split|].
  rewrite serve_cons. cbn [fst snd replies_for List.filter].
  destruct (counts_for ip (req, t)) eqn:Hc.
  - rewrite serve_cons. cbn [fst snd].
    destruct (before_request_local ip req t rc1 rc2 Hc E) as [Hr Hs].
    destruct (IH _ _ Hs) as [IH1 IH2]. now rewrite Hr, IH1, IH2.
  - apply IH. now rewrite before_request_other.
Qed.

(** X20.  A request is only turned away with 429, and only when it is not
    for [/health] and the counter of its address stands at 100 or more in a
    window begun no more than 3600 seconds earlier; turning it away changes
    no counter and no window. *)
Theorem rejection_changes_nothing req t rc r rc' :
  before_request req t rc = (Some r, rc') ->
  Some r = rate_limited /\ rc' = rc /\ path req <> "/health" /\
  exists e, rc !! remote_addr req = Some e /\
            (100 <= count e)%Z /\ (t - timestamp e <= 3600)%Q.
Proof.
  destruct (before_request_cases req t rc) as [[_ ->]|[N ->]]; [discriminate|].
  unfold check_rate_limit.
  destruct (rc !! remote_addr req) as [e|]; simpl; [|discriminate].
  destruct (Qlt_le_dec _ _) as [|Hle]; simpl; [discriminate|].
  destruct (100 <=? count e)%Z eqn:Hc; simpl; [|discriminate].
  intros [= <- <-]. split; [reflexivity|]. split; [reflexivity|].
  split; [exact N|]. exists e. split; [reflexivity|].
  split; [now apply Z.leb_le|exact Hle].
Qed.

Lemma counts_stay_in_range_witness :
  let req := {| path := "/info"; remote_addr := "10.0.0.7" |} in
  counts_in_range ∅ /\
  counts_in_range (snd (serve [(req, 0%Q); (req, 5%Q); (req, 4000%Q)] ∅)).
Proof.
  cbv zeta.
  assert (counts_in_range ∅) as H.
  { intros ip e He. rewrite lookup_empty in He. discriminate He. }
  split; [exact H|]. exact (counts_stay_in_range _ ∅ H).
Defined.

Lemma addresses_are_isolated_witness :
  let a := {| path := "/download"; remote_addr := "10.0.0.1" |} in
  let b := {| path := "/download"; remote_addr := "10.0.0.2" |} in
  let h := {| path := "/health"; remote_addr := "10.0.0.1" |} in
  let reqs := [(a, 0%Q); (b, 1%Q); (h, 2%Q); (a, 3%Q)] in
  (∅ : gmap string counter) !! "10.0.0.1" =
    (∅ : gmap string counter) !! "10.0.0.1" /\
  replies_for "10.0.0.1" reqs (fst (serve reqs ∅)) =
    fst (serve [(a, 0%Q); (a, 3%Q)] ∅) /\
  snd (serve reqs ∅) !! "10.0.0.1" =
    snd (serve [(a, 0%Q); (a, 3%Q)] ∅) !! "10.0.0.1".
Proof.
  cbv zeta. split; [reflexivity|].
  exact (addresses_are_isolated "10.0.0.1"
           [({| path := "/download"; remote_addr := "10.0.0.1" |}, 0%Q);
            ({| path := "/download"; remote_addr := "10.0.0.2" |}, 1%Q);
            ({| path := "/health"; remote_addr := "10.0.0.1" |}, 2%Q);
            ({| path := "/download"; remote_addr := "10.0.0.1" |}, 3%Q)]
           ∅ ∅ eq_refl).
Defined.

Lemma rejection_changes_nothing_witness :
  let req := {| path := "/download"; remote_addr := "10.0.0.1" |} in
  let rc : gmap string counter :=
    {[ "10.0.0.1" := {| count := 100; timestamp := 0%Q |} ]} in
  before_request req 10%Q rc =
    (Some (Json (error_result "Rate limit exceeded. Please try again later.") 429),
     rc) /\
  path req <> "/health" /\
  exists e, rc !! remote_addr req = Some e /\
            (100 <= count e)%Z /\ (10 - timestamp e <= 3600)%Q.
Proof.
  cbv zeta. split; [reflexivity|].
  exact (proj2 (proj2 (rejection_changes_nothing
                         {| path := "/download"; remote_addr := "10.0.0.1" |}
                         10%Q
                         {[ "10.0.0.1" := {| count := 100; timestamp := 0%Q |} ]}
                         _ _ eq_refl))).
Defined.

End RateLimitMore.
